(** * Skewb: a shallow embedding of the puzzle core of [Rasek91/skewb]

    The development follows the Go package [skewb]: the state is the
    record of eight corners and six centers, every method with a pointer
    receiver becomes a function that takes the state and returns the new
    one, Go [error] results become [option error] ([None] is [nil]), and
    a run-time panic is an explicit constructor of the result type.

    The drawing geometry ([cornerPositions], [centerPositions], [Draw]) is
    left out: it is floating-point data fixed per slot by [New], no move
    reads or writes it and no comparison looks at it. *)

From Stdlib Require Import String Ascii List ZArith Bool Lia Permutation.
Import ListNotations.

Open Scope string_scope.
Open Scope list_scope.

(** ** The parts of Go's [strings] and [fmt] packages the core calls *)

Module GoStrings.

(** [strings.Contains(s, sub)] for a one-byte [sub]. *)
Fixpoint Contains (s : string) (c : ascii) : bool :=
  match s with
  | EmptyString => false
  | String a r => if Ascii.eqb a c then true else Contains r c
  end.

(** [strings.ReplaceAll(s, old, new)] for a one-byte [old] and an empty
    [new]: every occurrence of the byte is dropped. *)
Fixpoint ReplaceAll (s : string) (c : ascii) : string :=
  match s with
  | EmptyString => EmptyString
  | String a r => if Ascii.eqb a c then ReplaceAll r c
                  else String a (ReplaceAll r c)
  end.

(** [strings.Split(s, sep)] for a one-byte [sep]: the pieces between the
    separators, empty pieces included; the result is never empty
    (splitting the empty string gives the one-element list holding the
    empty string). *)
Fixpoint Split (s : string) (sep : ascii) : list string :=
  match s with
  | EmptyString => [EmptyString]
  | String a r =>
      if Ascii.eqb a sep then EmptyString :: Split r sep
      else match Split r sep with
           | [] => [String a EmptyString]
           | t :: ts => String a t :: ts
           end
  end.

(** [fmt.Sprintf("%v %v", a, b)] on two strings. *)
Definition Sprintf_v_v (a b : string) : string := a ++ " " ++ b.

(** Substring test, for reading what an error message says. *)
Fixpoint hasSubstring (sub s : string) : bool :=
  if String.prefix sub s then true
  else match s with
       | EmptyString => false
       | String _ r => hasSubstring sub r
       end.

(** The last byte of a string. *)
Fixpoint lastByte (s : string) : option ascii :=
  match s with
  | EmptyString => None
  | String a EmptyString => Some a
  | String _ r => lastByte r
  end.

End GoStrings.
Import GoStrings.

Definition space : ascii := " "%char.
Definition apostrophe : ascii := "'"%char.
Definition two : ascii := "2"%char.

(** ** Errors and abnormal termination *)

(** A Go [error] is represented by its message. *)
Definition error := string.

(** What a call does: it returns, or the Go run time aborts it. *)
Inductive outcome (A : Type) : Type :=
| Returns (a : A)
| Panics (why : string).
Arguments Returns {A} a.
Arguments Panics {A} why.

Definition indexOutOfRange : string := "index out of range".

(** ** Data model *)

Record CornerColors : Type := mkCornerColors
  { first : string; second : string; third : string }.

Record corner : Type := mkCorner { colors : CornerColors }.

Record center : Type := mkCenter { color : string }.

Record Skewb : Type := mkSkewb
  { ufr : corner; urb : corner; ulf : corner; ubl : corner;
    drf : corner; dbr : corner; dfl : corner; dlb : corner;
    up : center; front : center; right : center;
    back : center; left : center; down : center }.

(** Go's [int]; the core only stores the constants -1, 0, .., 5 in it. *)
Definition int : Set := BinNums.Z.

Definition Move := string.

Definition U : Move := "U".
Definition UPrime : Move := "U'".
Definition R : Move := "R".
Definition RPrime : Move := "R'".
Definition LittleR : Move := "r".
Definition LittleRPrime : Move := "r'".
Definition B : Move := "B".
Definition BPrime : Move := "B'".
Definition LittleB : Move := "b".
Definition LittleBPrime : Move := "b'".
Definition L : Move := "L".
Definition LPrime : Move := "L'".
Definition LittleL : Move := "l".
Definition LittleLPrime : Move := "l'".
Definition F : Move := "F".
Definition FPrime : Move := "F'".
Definition LittleF : Move := "f".
Definition LittleFPrime : Move := "f'".

Definition X : Move := "x".
Definition XPrime : Move := "x'".
Definition X2 : Move := "x2".
Definition Y : Move := "y".
Definition YPrime : Move := "y'".
Definition Y2 : Move := "y2".
Definition Z : Move := "z".
Definition ZPrime : Move := "z'".
Definition Z2 : Move := "z2".

(** A token between double quotes, as the error text spells it. *)
Definition quoted (s : string) : string :=
  String (ascii_of_nat 34) (s ++ String (ascii_of_nat 34) EmptyString).

Definition ErrWCAMove : error :=
  ("wca move is not supported; valid types are: "
  ++ quoted "U" ++ ", " ++ quoted "U'" ++ " "
  ++ quoted "R" ++ ", " ++ quoted "R'" ++ " "
  ++ quoted "B" ++ ", " ++ quoted "B'" ++ " "
  ++ quoted "L" ++ ", " ++ quoted "L'" ++ ", "
  ++ quoted "x" ++ ", " ++ quoted "x'" ++ ", " ++ quoted "x2" ++ ", "
  ++ quoted "y" ++ ", " ++ quoted "y'" ++ ", " ++ quoted "y2" ++ ", "
  ++ quoted "z" ++ ", " ++ quoted "z'" ++ ", " ++ quoted "z2")%string.

Definition ErrColor : error := "color is not part of Skewb".

Definition clockwise : bool := true.
Definition itsY : bool := true.
Definition equal_ : bool := true.
Definition counterClockwise : bool := false.
Definition itsntY : bool := false.
Definition notEqual : bool := false.

Definition layerCornerColor : int := 0%Z.
Definition firstCornerColor : int := 1%Z.
Definition secondCornerColor : int := 2%Z.
Definition otherCornerColor : int := (-1)%Z.

Definition New (upColor frontColor rightColor backColor leftColor downColor : string)
  : Skewb :=
  {| ufr := mkCorner (mkCornerColors upColor frontColor rightColor);
     urb := mkCorner (mkCornerColors upColor rightColor backColor);
     ulf := mkCorner (mkCornerColors upColor leftColor frontColor);
     ubl := mkCorner (mkCornerColors upColor backColor leftColor);
     drf := mkCorner (mkCornerColors downColor rightColor frontColor);
     dbr := mkCorner (mkCornerColors downColor backColor rightColor);
     dfl := mkCorner (mkCornerColors downColor frontColor leftColor);
     dlb := mkCorner (mkCornerColors downColor leftColor backColor);
     up := mkCenter upColor;
     front := mkCenter frontColor;
     right := mkCenter rightColor;
     back := mkCenter backColor;
     left := mkCenter leftColor;
     down := mkCenter downColor |}.

(** ** Pointers into a state

    [applyMove] and [applyRotation] receive the addresses of fields of the
    state ([&s.ubl], [&s.up], ...).  An address is the name of the field;
    dereferencing reads the field and assigning through it writes it. *)

Inductive cornerPtr : Type :=
| p_ufr | p_urb | p_ulf | p_ubl | p_drf | p_dbr | p_dfl | p_dlb.

Inductive centerPtr : Type :=
| p_up | p_front | p_right | p_back | p_left | p_down.

Definition loadCorner (p : cornerPtr) (s : Skewb) : corner :=
  match p with
  | p_ufr => ufr s | p_urb => urb s | p_ulf => ulf s | p_ubl => ubl s
  | p_drf => drf s | p_dbr => dbr s | p_dfl => dfl s | p_dlb => dlb s
  end.

Definition storeCorner (p : cornerPtr) (c : corner) (s : Skewb) : Skewb :=
  match p with
  | p_ufr => mkSkewb c (urb s) (ulf s) (ubl s) (drf s) (dbr s) (dfl s) (dlb s)
               (up s) (front s) (right s) (back s) (left s) (down s)
  | p_urb => mkSkewb (ufr s) c (ulf s) (ubl s) (drf s) (dbr s) (dfl s) (dlb s)
               (up s) (front s) (right s) (back s) (left s) (down s)
  | p_ulf => mkSkewb (ufr s) (urb s) c (ubl s) (drf s) (dbr s) (dfl s) (dlb s)
               (up s) (front s) (right s) (back s) (left s) (down s)
  | p_ubl => mkSkewb (ufr s) (urb s) (ulf s) c (drf s) (dbr s) (dfl s) (dlb s)
               (up s) (front s) (right s) (back s) (left s) (down s)
  | p_drf => mkSkewb (ufr s) (urb s) (ulf s) (ubl s) c (dbr s) (dfl s) (dlb s)
               (up s) (front s) (right s) (back s) (left s) (down s)
  | p_dbr => mkSkewb (ufr s) (urb s) (ulf s) (ubl s) (drf s) c (dfl s) (dlb s)
               (up s) (front s) (right s) (back s) (left s) (down s)
  | p_dfl => mkSkewb (ufr s) (urb s) (ulf s) (ubl s) (drf s) (dbr s) c (dlb s)
               (up s) (front s) (right s) (back s) (left s) (down s)
  | p_dlb => mkSkewb (ufr s) (urb s) (ulf s) (ubl s) (drf s) (dbr s) (dfl s) c
               (up s) (front s) (right s) (back s) (left s) (down s)
  end.

Definition loadCenter (p : centerPtr) (s : Skewb) : center :=
  match p with
  | p_up => up s | p_front => front s | p_right => right s
  | p_back => back s | p_left => left s | p_down => down s
  end.

Definition storeCenter (p : centerPtr) (c : center) (s : Skewb) : Skewb :=
  match p with
  | p_up => mkSkewb (ufr s) (urb s) (ulf s) (ubl s) (drf s) (dbr s) (dfl s) (dlb s)
              c (front s) (right s) (back s) (left s) (down s)
  | p_front => mkSkewb (ufr s) (urb s) (ulf s) (ubl s) (drf s) (dbr s) (dfl s) (dlb s)
              (up s) c (right s) (back s) (left s) (down s)
  | p_right => mkSkewb (ufr s) (urb s) (ulf s) (ubl s) (drf s) (dbr s) (dfl s) (dlb s)
              (up s) (front s) c (back s) (left s) (down s)
  | p_back => mkSkewb (ufr s) (urb s) (ulf s) (ubl s) (drf s) (dbr s) (dfl s) (dlb s)
              (up s) (front s) (right s) c (left s) (down s)
  | p_left => mkSkewb (ufr s) (urb s) (ulf s) (ubl s) (drf s) (dbr s) (dfl s) (dlb s)
              (up s) (front s) (right s) (back s) c (down s)
  | p_down => mkSkewb (ufr s) (urb s) (ulf s) (ubl s) (drf s) (dbr s) (dfl s) (dlb s)
              (up s) (front s) (right s) (back s) (left s) c
  end.

(** [p.colors = cc] and [p.color = c]. *)
Definition storeColors (p : cornerPtr) (cc : CornerColors) (s : Skewb) : Skewb :=
  storeCorner p (mkCorner cc) s.

Definition storeColor (p : centerPtr) (c : string) (s : Skewb) : Skewb :=
  storeCenter p (mkCenter c) s.

(** ** Move engine *)

(** [(c *corner) rotate(isClockwise)]: the parallel assignment reads the
    three colours first and then writes them. *)
Definition rotate (c : cornerPtr) (isClockwise : bool) (s : Skewb) : Skewb :=
  let cc := colors (loadCorner c s) in
  if Bool.eqb isClockwise clockwise
  then storeColors c (mkCornerColors (second cc) (third cc) (first cc)) s
  else storeColors c (mkCornerColors (third cc) (first cc) (second cc)) s.

Definition rotateThreeCenters (c1 c2 c3 : centerPtr) (isClockwise : bool)
    (s : Skewb) : Skewb :=
  let v1 := color (loadCenter c1 s) in
  let v2 := color (loadCenter c2 s) in
  let v3 := color (loadCenter c3 s) in
  if Bool.eqb isClockwise clockwise
  then storeColor c3 v2 (storeColor c2 v1 (storeColor c1 v3 s))
  else storeColor c3 v1 (storeColor c2 v3 (storeColor c1 v2 s)).

Definition rotateThreeCorners (c1 c2 c3 : cornerPtr) (isClockwise : bool)
    (s : Skewb) : Skewb :=
  let v1 := colors (loadCorner c1 s) in
  let v2 := colors (loadCorner c2 s) in
  let v3 := colors (loadCorner c3 s) in
  if Bool.eqb isClockwise clockwise
  then storeColors c3 v2 (storeColors c2 v1 (storeColors c1 v3 s))
  else storeColors c3 v1 (storeColors c2 v3 (storeColors c1 v2 s)).

Definition applyMove (rotationCenter firstCorner secondCorner thirdCorner : cornerPtr)
    (firstCenter secondCenter thirdCenter : centerPtr) (isClockwise : bool)
    (s : Skewb) : Skewb :=
  let s := rotate rotationCenter isClockwise s in
  let s := rotate firstCorner (negb isClockwise) s in
  let s := rotate secondCorner (negb isClockwise) s in
  let s := rotate thirdCorner (negb isClockwise) s in
  let s := rotateThreeCenters firstCenter secondCenter thirdCenter isClockwise s in
  rotateThreeCorners firstCorner secondCorner thirdCorner isClockwise s.

Definition rotateFourCenters (c1 c2 c3 c4 : centerPtr) (isClockwise : bool)
    (s : Skewb) : Skewb :=
  let v1 := color (loadCenter c1 s) in
  let v2 := color (loadCenter c2 s) in
  let v3 := color (loadCenter c3 s) in
  let v4 := color (loadCenter c4 s) in
  if Bool.eqb isClockwise clockwise
  then storeColor c4 v3 (storeColor c3 v2 (storeColor c2 v1 (storeColor c1 v4 s)))
  else storeColor c4 v1 (storeColor c3 v4 (storeColor c2 v3 (storeColor c1 v2 s))).

Definition rotateFourCorners (c1 c2 c3 c4 : cornerPtr) (isClockwise : bool)
    (s : Skewb) : Skewb :=
  let v1 := colors (loadCorner c1 s) in
  let v2 := colors (loadCorner c2 s) in
  let v3 := colors (loadCorner c3 s) in
  let v4 := colors (loadCorner c4 s) in
  if Bool.eqb isClockwise clockwise
  then storeColors c4 v3 (storeColors c3 v2 (storeColors c2 v1 (storeColors c1 v4 s)))
  else storeColors c4 v1 (storeColors c3 v4 (storeColors c2 v3 (storeColors c1 v2 s))).

(** One quarter turn of [applyRotation]: the block the function runs once,
    and a second time when [isDouble] holds. *)
Definition quarterTurn
    (firstCorner secondCorner thirdCorner fourthCorner
     fifthCorner sixthCorner seventhCorner eighthCorner : cornerPtr)
    (firstCenter secondCenter thirdCenter fourthCenter : centerPtr)
    (isClockwise isY : bool) (s : Skewb) : Skewb :=
  let s := rotateFourCenters firstCenter secondCenter thirdCenter fourthCenter
             isClockwise s in
  let s := rotateFourCorners firstCorner secondCorner thirdCorner fourthCorner
             isClockwise s in
  let s := rotateFourCorners fifthCorner sixthCorner seventhCorner eighthCorner
             isClockwise s in
  if negb isY then
    let s := rotate firstCorner counterClockwise s in
    let s := rotate secondCorner clockwise s in
    let s := rotate thirdCorner counterClockwise s in
    let s := rotate fourthCorner clockwise s in
    let s := rotate fifthCorner clockwise s in
    let s := rotate sixthCorner counterClockwise s in
    let s := rotate seventhCorner clockwise s in
    rotate eighthCorner counterClockwise s
  else s.

Definition applyRotation
    (firstCorner secondCorner thirdCorner fourthCorner
     fifthCorner sixthCorner seventhCorner eighthCorner : cornerPtr)
    (firstCenter secondCenter thirdCenter fourthCenter : centerPtr)
    (isClockwise isDouble isY : bool) (s : Skewb) : Skewb :=
  let s := quarterTurn firstCorner secondCorner thirdCorner fourthCorner
             fifthCorner sixthCorner seventhCorner eighthCorner
             firstCenter secondCenter thirdCenter fourthCenter
             isClockwise isY s in
  if isDouble then
    quarterTurn firstCorner secondCorner thirdCorner fourthCorner
      fifthCorner sixthCorner seventhCorner eighthCorner
      firstCenter secondCenter thirdCenter fourthCenter
      isClockwise isY s
  else s.

(** A [case] clause with several values: the tag equals one of them. *)
Definition oneOf (move : Move) (cases : list Move) : bool :=
  existsb (String.eqb move) cases.

(** The three axis rotations, dispatched the same way by both notations. *)
Definition applyAxis (move : Move) (isClockwise : bool) (s : Skewb) : Skewb :=
  if oneOf move [X; XPrime; X2] then
    applyRotation p_ufr p_urb p_dbr p_drf p_ulf p_ubl p_dlb p_dfl
      p_front p_up p_back p_down isClockwise (String.eqb move X2) itsntY s
  else if oneOf move [Y; YPrime; Y2] then
    applyRotation p_ufr p_ulf p_ubl p_urb p_drf p_dfl p_dlb p_dbr
      p_front p_left p_back p_right isClockwise (String.eqb move Y2) itsY s
  else if oneOf move [Z; ZPrime; Z2] then
    applyRotation p_ulf p_ufr p_drf p_dfl p_ubl p_urb p_dbr p_dlb
      p_up p_right p_down p_left isClockwise (String.eqb move Z2) itsntY s
  else s.

(** The first [switch] of [ApplyWCAMoves]: the direction of the move, or
    [None] when the [default] clause is taken. *)
Definition wcaDirection (move : Move) : option bool :=
  if oneOf move [U; R; B; L; X; X2; Y; Y2; Z; Z2] then Some clockwise
  else if oneOf move [UPrime; RPrime; BPrime; LPrime; XPrime; YPrime; ZPrime]
  then Some counterClockwise
  else None.

(** The body of the loop of [ApplyWCAMoves] for one token: the error it
    returns with, or the state the next iteration starts from. *)
Definition wcaToken (s : Skewb) (m : string) : Skewb * option error :=
  let move : Move := m in
  match wcaDirection move with
  | None => (s, Some (Sprintf_v_v move ErrWCAMove))
  | Some isClockwise =>
    (if oneOf move [U; UPrime] then
       applyMove p_ubl p_dlb p_urb p_ulf p_up p_left p_back isClockwise s
     else if oneOf move [R; RPrime] then
       applyMove p_dbr p_drf p_urb p_dlb p_right p_back p_down isClockwise s
     else if oneOf move [B; BPrime] then
       applyMove p_dlb p_dbr p_ubl p_dfl p_back p_left p_down isClockwise s
     else if oneOf move [L; LPrime] then
       applyMove p_dfl p_dlb p_ulf p_drf p_front p_down p_left isClockwise s
     else applyAxis move isClockwise s,
     None)
  end.

(** The first [switch] of [ApplyRubiskewbMoves]. *)
Definition rubiskewbDirection (move : Move) : option bool :=
  if oneOf move [R; LittleR; B; LittleB; L; LittleL; F; LittleF;
                 X; X2; Y; Y2; Z; Z2] then Some clockwise
  else if oneOf move [RPrime; LittleRPrime; BPrime; LittleBPrime; LPrime;
                      LittleLPrime; FPrime; LittleFPrime; XPrime; YPrime; ZPrime]
  then Some counterClockwise
  else None.

(** The body of the loop of [ApplyRubiskewbMoves] for one token.  Its
    [default] clause formats the same [ErrWCAMove] as [ApplyWCAMoves]. *)
Definition rubiskewbToken (s : Skewb) (m : string) : Skewb * option error :=
  let move : Move := m in
  match rubiskewbDirection move with
  | None => (s, Some (Sprintf_v_v move ErrWCAMove))
  | Some isClockwise =>
    (if oneOf move [R; RPrime] then
       applyMove p_urb p_ufr p_ubl p_dbr p_right p_up p_back isClockwise s
     else if oneOf move [LittleR; LittleRPrime] then
       applyMove p_dbr p_drf p_urb p_dlb p_right p_back p_down isClockwise s
     else if oneOf move [B; BPrime] then
       applyMove p_ubl p_dlb p_urb p_ulf p_up p_left p_back isClockwise s
     else if oneOf move [LittleB; LittleBPrime] then
       applyMove p_dlb p_dbr p_ubl p_dfl p_back p_left p_down isClockwise s
     else if oneOf move [L; LPrime] then
       applyMove p_ulf p_ubl p_ufr p_dfl p_up p_front p_left isClockwise s
     else if oneOf move [LittleL; LittleLPrime] then
       applyMove p_dfl p_dlb p_ulf p_drf p_front p_down p_left isClockwise s
     else if oneOf move [F; FPrime] then
       applyMove p_ufr p_ulf p_urb p_drf p_front p_up p_right isClockwise s
     else if oneOf move [LittleF; LittleFPrime] then
       applyMove p_drf p_dfl p_ufr p_dbr p_front p_right p_down isClockwise s
     else applyAxis move isClockwise s,
     None)
  end.

(** [for _, m := range tokens { body }; return nil]: the first error ends
    the loop and is returned with the state reached so far. *)
Fixpoint applyTokens (body : Skewb -> string -> Skewb * option error)
    (tokens : list string) (s : Skewb) : Skewb * option error :=
  match tokens with
  | [] => (s, None)
  | m :: rest =>
      match body s m with
      | (s', Some e) => (s', Some e)
      | (s', None) => applyTokens body rest s'
      end
  end.

Definition ApplyWCAMoves (s : Skewb) (wcaMoves : string) : Skewb * option error :=
  applyTokens wcaToken (Split wcaMoves space) s.

Definition ApplyRubiskewbMoves (s : Skewb) (rubiskewbMoves : string)
  : Skewb * option error :=
  applyTokens rubiskewbToken (Split rubiskewbMoves space) s.

(** ** Getters and fixed-size arrays *)

(** [[3]string] and [[3]int]. *)
Definition array3 (A : Type) : Type := (A * A * A)%type.

Definition at0 {A} (a : array3 A) : A := let '(x, _, _) := a in x.
Definition at1 {A} (a : array3 A) : A := let '(_, x, _) := a in x.
Definition at2 {A} (a : array3 A) : A := let '(_, _, x) := a in x.

(** [==] on [[3]string]. *)
Definition array3_eqb (a b : array3 string) : bool :=
  String.eqb (at0 a) (at0 b) && String.eqb (at1 a) (at1 b)
  && String.eqb (at2 a) (at2 b).

Definition cornerColors (c : corner) : array3 string :=
  (first (colors c), second (colors c), third (colors c)).

Definition GetUFRCornerColors (s : Skewb) : array3 string := cornerColors (ufr s).
Definition GetURBCornerColors (s : Skewb) : array3 string := cornerColors (urb s).
Definition GetULFCornerColors (s : Skewb) : array3 string := cornerColors (ulf s).
Definition GetUBLCornerColors (s : Skewb) : array3 string := cornerColors (ubl s).
Definition GetDRFCornerColors (s : Skewb) : array3 string := cornerColors (drf s).
Definition GetDBRCornerColors (s : Skewb) : array3 string := cornerColors (dbr s).
Definition GetDFLCornerColors (s : Skewb) : array3 string := cornerColors (dfl s).
Definition GetDLBCornerColors (s : Skewb) : array3 string := cornerColors (dlb s).

Definition GetUpCenterColor (s : Skewb) : string := color (up s).
Definition GetFrontCenterColor (s : Skewb) : string := color (front s).
Definition GetRightCenterColor (s : Skewb) : string := color (right s).
Definition GetBackCenterColor (s : Skewb) : string := color (back s).
Definition GetLeftCenterColor (s : Skewb) : string := color (left s).
Definition GetDownCenterColor (s : Skewb) : string := color (down s).

(** [fmt.Sprintf("%v", m)] on a string. *)
Definition Sprintf_v (m : string) : string := m.

(** ** Reverse computer *)

(** The body of the loop of [createReverse] up to the final [Sprintf]. *)
Definition reverseMove (move : string) : string :=
  if Contains move apostrophe then ReplaceAll move apostrophe
  else if negb (Contains move two) then (move ++ "'")%string
  else move.

Definition createReverse (moves : string) : string :=
  fold_left (fun reverse move => Sprintf_v_v (reverseMove move) reverse)
            (Split moves space) EmptyString.

(** ** Equivalence checker *)

Definition CenterDown (s : Skewb) (color_ : string) : Skewb * option error :=
  if String.eqb (color (up s)) color_ then ApplyWCAMoves s (Sprintf_v X2)
  else if String.eqb (color (front s)) color_ then ApplyWCAMoves s (Sprintf_v XPrime)
  else if String.eqb (color (right s)) color_ then ApplyWCAMoves s (Sprintf_v Z)
  else if String.eqb (color (back s)) color_ then ApplyWCAMoves s (Sprintf_v X)
  else if String.eqb (color (left s)) color_ then ApplyWCAMoves s (Sprintf_v ZPrime)
  else if String.eqb (color (down s)) color_ then (s, None)
  else (s, Some (Sprintf_v_v color_ ErrColor)).

(** The method [equal]; the package variable of the same name is [equal_]. *)
Definition equal (s other : Skewb) : bool :=
  if negb (array3_eqb (cornerColors (ufr s)) (GetUFRCornerColors other)) then notEqual
  else if negb (array3_eqb (cornerColors (urb s)) (GetURBCornerColors other)) then notEqual
  else if negb (array3_eqb (cornerColors (ulf s)) (GetULFCornerColors other)) then notEqual
  else if negb (array3_eqb (cornerColors (ubl s)) (GetUBLCornerColors other)) then notEqual
  else if negb (array3_eqb (cornerColors (drf s)) (GetDRFCornerColors other)) then notEqual
  else if negb (array3_eqb (cornerColors (dbr s)) (GetDBRCornerColors other)) then notEqual
  else if negb (array3_eqb (cornerColors (dfl s)) (GetDFLCornerColors other)) then notEqual
  else if negb (array3_eqb (cornerColors (dlb s)) (GetDLBCornerColors other)) then notEqual
  else if negb (String.eqb (color (up s)) (GetUpCenterColor other)) then notEqual
  else if negb (String.eqb (color (front s)) (GetFrontCenterColor other)) then notEqual
  else if negb (String.eqb (color (right s)) (GetRightCenterColor other)) then notEqual
  else if negb (String.eqb (color (back s)) (GetBackCenterColor other)) then notEqual
  else if negb (String.eqb (color (left s)) (GetLeftCenterColor other)) then notEqual
  else if negb (String.eqb (color (down s)) (GetDownCenterColor other)) then notEqual
  else equal_.

Definition ExactEqual (s other : Skewb) : bool := equal s other.

(** The [for range n] loop of [Equal]; the error of [ApplyWCAMoves] is
    dropped, as in the source. *)
Fixpoint EqualLoop (n : nat) (s other : Skewb) : Skewb * bool :=
  match n with
  | O => (other, notEqual)
  | S n' =>
      let other := fst (ApplyWCAMoves other (Sprintf_v Y)) in
      if equal s other then (other, equal_) else EqualLoop n' s other
  end.

(** [Equal] returns a [bool] only; the state of [other] it leaves behind is
    the first component.  The result of [other.CenterDown] is not looked at. *)
Definition Equal (s other : Skewb) : Skewb * bool :=
  let other := fst (CenterDown other (color (down s))) in
  if equal s other then (other, equal_)
  else EqualLoop 3 s other.

(** ** Mirror checker: one layer *)

Definition index (array : array3 string) (element : string) : int :=
  if String.eqb (at0 array) element then 0%Z
  else if String.eqb (at1 array) element then 1%Z
  else if String.eqb (at2 array) element then 2%Z
  else (-1)%Z.

(** [[4][3]int] as rows of cells; [cell] reads at indices known to be in
    range, [setCell] is an indexed assignment with Go's bounds check. *)
Definition table := list (list int).

Definition zeroTable (rows cols : nat) : table := repeat (repeat 0%Z cols) rows.

Definition cell (t : table) (i j : nat) : int := nth j (nth i t []) 0%Z.

Fixpoint replaceAt {A} (i : nat) (v : A) (l : list A) : list A :=
  match l, i with
  | [], _ => []
  | _ :: r, O => v :: r
  | a :: r, S i' => a :: replaceAt i' v r
  end.

Definition setCell (t : table) (i j : nat) (v : int) : outcome table :=
  match nth_error t i with
  | None => Panics indexOutOfRange
  | Some row =>
      if Nat.ltb j (length row) then Returns (replaceAt i (replaceAt j v row) t)
      else Panics indexOutOfRange
  end.

Definition table_eqb (a b : table) : bool :=
  if list_eq_dec (list_eq_dec Z.eq_dec) a b then true else false.

(** The [switch] in the inner loop of [getLayerColor]. *)
Definition relativeTo (reference : array3 string) (layerColors : table)
    (color_ : string) : int :=
  if String.eqb (at0 reference) color_ then cell layerColors 0 0
  else if String.eqb (at1 reference) color_ then cell layerColors 0 1
  else if String.eqb (at2 reference) color_ then cell layerColors 0 2
  else otherCornerColor.

(** [for j, color := range corner { layerColors[i+1][j] = ... }]. *)
Definition layerRow (reference : array3 string) (i : nat) (corner_ : array3 string)
    (layerColors : table) : outcome table :=
  match setCell layerColors (i + 1) 0 (relativeTo reference layerColors (at0 corner_)) with
  | Panics w => Panics w
  | Returns t1 =>
    match setCell t1 (i + 1) 1 (relativeTo reference t1 (at1 corner_)) with
    | Panics w => Panics w
    | Returns t2 => setCell t2 (i + 1) 2 (relativeTo reference t2 (at2 corner_))
    end
  end.

(** [for i, corner := range layerCorners[1:]]. *)
Fixpoint layerRows (reference : array3 string) (i : nat)
    (corners : list (array3 string)) (layerColors : table) : outcome table :=
  match corners with
  | [] => Returns layerColors
  | corner_ :: rest =>
      match layerRow reference i corner_ layerColors with
      | Panics w => Panics w
      | Returns t => layerRows reference (S i) rest t
      end
  end.

(** Row 0 after the first [switch] of [getLayerColor]; no clause matching
    leaves the zero row. *)
Definition referenceRow (reference : array3 string) (layerColor : string) : list int :=
  if String.eqb (at0 reference) layerColor
  then [layerCornerColor; firstCornerColor; secondCornerColor]
  else if String.eqb (at1 reference) layerColor
  then [firstCornerColor; layerCornerColor; secondCornerColor]
  else if String.eqb (at2 reference) layerColor
  then [firstCornerColor; secondCornerColor; layerCornerColor]
  else [0%Z; 0%Z; 0%Z].

(** [layerCorners[0]] on an empty slice aborts the program. *)
Definition getLayerColor (layerCorners : list (array3 string)) (layerColor : string)
  : outcome table :=
  let layerColors := zeroTable 4 3 in
  match layerCorners with
  | [] => Panics indexOutOfRange
  | reference :: rest =>
      let layerColors := replaceAt 0 (referenceRow reference layerColor) layerColors in
      layerRows reference 0 rest layerColors
  end.

(** One [if id := index(...); id != -1 { append; append }] block. *)
Definition appendLayerCorner (get : Skewb -> array3 string) (s other : Skewb)
    (layerColor : string)
    (acc : list (array3 string) * list (array3 string))
  : list (array3 string) * list (array3 string) :=
  if negb (Z.eqb (index (get s) layerColor) (-1))
  then (fst acc ++ [get s], snd acc ++ [get other])
  else acc.

Definition layerCorners (s other : Skewb) (layerColor : string)
  : list (array3 string) * list (array3 string) :=
  let acc := ([], []) in
  let acc := appendLayerCorner GetUFRCornerColors s other layerColor acc in
  let acc := appendLayerCorner GetURBCornerColors s other layerColor acc in
  let acc := appendLayerCorner GetULFCornerColors s other layerColor acc in
  let acc := appendLayerCorner GetUBLCornerColors s other layerColor acc in
  let acc := appendLayerCorner GetDRFCornerColors s other layerColor acc in
  let acc := appendLayerCorner GetDBRCornerColors s other layerColor acc in
  let acc := appendLayerCorner GetDFLCornerColors s other layerColor acc in
  appendLayerCorner GetDLBCornerColors s other layerColor acc.

Definition oneLayerMirror (s other : Skewb) (layerColor : string) : outcome bool :=
  let '(sLayerCorners, otherLayerCorners) := layerCorners s other layerColor in
  match getLayerColor sLayerCorners layerColor with
  | Panics w => Panics w
  | Returns sLayerColors =>
    match getLayerColor otherLayerCorners layerColor with
    | Panics w => Panics w
    | Returns otherLayerColors =>
        if table_eqb sLayerColors otherLayerColors then Returns equal_
        else Returns notEqual
    end
  end.

(** The loop of [OneLayerMirror] over its rotations. *)
Fixpoint OneLayerMirrorLoop (rotations : list string) (s other : Skewb)
    (layerColor : string) : outcome (Skewb * bool) :=
  match rotations with
  | [] => Returns (other, notEqual)
  | rotation :: rest =>
      let other := fst (ApplyWCAMoves other rotation) in
      match oneLayerMirror s other layerColor with
      | Panics w => Panics w
      | Returns true =>
          let reverse := createReverse rotation in
          let other := fst (ApplyWCAMoves other reverse) in
          Returns (other, equal_)
      | Returns false =>
          let reverse := createReverse rotation in
          let other := fst (ApplyWCAMoves other reverse) in
          OneLayerMirrorLoop rest s other layerColor
      end
  end.

Definition OneLayerMirror_rotations : list string := ["y"; "y'"; "y2"].

(** The result holds the receiver and [other] as the call leaves them. *)
Definition OneLayerMirror (s other : Skewb) (layerColor : string)
  : outcome (Skewb * Skewb * bool) :=
  let s := fst (CenterDown s layerColor) in
  let other := fst (CenterDown other (color (down s))) in
  match oneLayerMirror s other layerColor with
  | Panics w => Panics w
  | Returns true => Returns (s, other, equal_)
  | Returns false =>
      match OneLayerMirrorLoop OneLayerMirror_rotations s other layerColor with
      | Panics w => Panics w
      | Returns (other', r) => Returns (s, other', r)
      end
  end.

(** ** Mirror checker: whole puzzle *)

Definition faceIndex (upColor frontColor rightColor backColor leftColor downColor
    c : string) : int :=
  if String.eqb c upColor then 0%Z
  else if String.eqb c frontColor then 1%Z
  else if String.eqb c rightColor then 2%Z
  else if String.eqb c backColor then 3%Z
  else if String.eqb c leftColor then 4%Z
  else if String.eqb c downColor then 5%Z
  else 0%Z.

Definition getCornerRelativeColors (colors_ : array3 string)
    (upColor frontColor rightColor backColor leftColor downColor : string)
  : array3 int :=
  let f := faceIndex upColor frontColor rightColor backColor leftColor downColor in
  (f (at0 colors_), f (at1 colors_), f (at2 colors_)).

(** An assignment [relativeColors[i][j] = v] at constant indices. *)
Definition put (i j : nat) (v : int) (t : table) : table :=
  replaceAt i (replaceAt j v (nth i t [])) t.

Definition getRelativeColors (s : Skewb) : table :=
  let relativeColors := zeroTable 6 5 in
  let upColor := GetUpCenterColor s in
  let relativeColors := put 0 0 0%Z relativeColors in
  let frontColor := GetFrontCenterColor s in
  let relativeColors := put 1 0 1%Z relativeColors in
  let rightColor := GetRightCenterColor s in
  let relativeColors := put 2 0 2%Z relativeColors in
  let backColor := GetBackCenterColor s in
  let relativeColors := put 3 0 3%Z relativeColors in
  let leftColor := GetLeftCenterColor s in
  let relativeColors := put 4 0 4%Z relativeColors in
  let downColor := GetDownCenterColor s in
  let relativeColors := put 5 0 5%Z relativeColors in
  let rel c := getCornerRelativeColors c upColor frontColor rightColor
                 backColor leftColor downColor in
  let ufrRelativeColors := rel (GetUFRCornerColors s) in
  let relativeColors := put 0 1 (at0 ufrRelativeColors) relativeColors in
  let relativeColors := put 1 1 (at1 ufrRelativeColors) relativeColors in
  let relativeColors := put 2 1 (at2 ufrRelativeColors) relativeColors in
  let urbRelativeColors := rel (GetURBCornerColors s) in
  let relativeColors := put 0 2 (at0 urbRelativeColors) relativeColors in
  let relativeColors := put 2 2 (at1 urbRelativeColors) relativeColors in
  let relativeColors := put 3 1 (at2 urbRelativeColors) relativeColors in
  let ulfRelativeColors := rel (GetULFCornerColors s) in
  let relativeColors := put 0 3 (at0 ulfRelativeColors) relativeColors in
  let relativeColors := put 4 1 (at1 ulfRelativeColors) relativeColors in
  let relativeColors := put 1 2 (at2 ulfRelativeColors) relativeColors in
  let ublRelativeColors := rel (GetUBLCornerColors s) in
  let relativeColors := put 0 4 (at0 ublRelativeColors) relativeColors in
  let relativeColors := put 3 2 (at1 ublRelativeColors) relativeColors in
  let relativeColors := put 4 2 (at2 ublRelativeColors) relativeColors in
  let drfRelativeColors := rel (GetDRFCornerColors s) in
  let relativeColors := put 5 1 (at0 drfRelativeColors) relativeColors in
  let relativeColors := put 2 3 (at1 drfRelativeColors) relativeColors in
  let relativeColors := put 1 3 (at2 drfRelativeColors) relativeColors in
  let dbrRelativeColors := rel (GetDBRCornerColors s) in
  let relativeColors := put 5 2 (at0 dbrRelativeColors) relativeColors in
  let relativeColors := put 3 3 (at1 dbrRelativeColors) relativeColors in
  let relativeColors := put 2 4 (at2 dbrRelativeColors) relativeColors in
  let dflRelativeColors := rel (GetDFLCornerColors s) in
  let relativeColors := put 5 3 (at0 dflRelativeColors) relativeColors in
  let relativeColors := put 1 4 (at1 dflRelativeColors) relativeColors in
  let relativeColors := put 4 3 (at2 dflRelativeColors) relativeColors in
  let dlbRelativeColors := rel (GetDLBCornerColors s) in
  let relativeColors := put 5 4 (at0 dlbRelativeColors) relativeColors in
  let relativeColors := put 4 4 (at1 dlbRelativeColors) relativeColors in
  let relativeColors := put 3 4 (at2 dlbRelativeColors) relativeColors in
  relativeColors.

Definition fullMirror (s other : Skewb) : bool :=
  let sRelativeColors := getRelativeColors s in
  let otherRelativeColors := getRelativeColors other in
  if table_eqb sRelativeColors otherRelativeColors then equal_ else notEqual.

Definition FullMirror_rotations : list string :=
  ["x"; "x'"; "x2"; "y"; "y'"; "y2"; "z"; "z'"; "z2";
   "x y"; "x y'"; "x y2"; "x z"; "x z'"; "x z2";
   "x' y"; "x' y'"; "x' z"; "x' z'";
   "x2 y"; "x2 y'"; "x2 z"; "x2 z'"].

(** The loop of [FullMirror] over its rotations. *)
Fixpoint FullMirrorLoop (rotations : list string) (s other : Skewb) : Skewb * bool :=
  match rotations with
  | [] => (other, notEqual)
  | rotation :: rest =>
      let other := fst (ApplyWCAMoves other rotation) in
      if fullMirror s other then
        let reverse := createReverse rotation in
        let other := fst (ApplyWCAMoves other reverse) in
        (other, equal_)
      else
        let reverse := createReverse rotation in
        let other := fst (ApplyWCAMoves other reverse) in
        FullMirrorLoop rest s other
  end.

Definition FullMirror (s other : Skewb) : Skewb * bool :=
  if fullMirror s other then (other, equal_)
  else FullMirrorLoop FullMirror_rotations s other.


(** ** Vocabularies and example states *)

Inductive notation : Set := WCA | Rubiskewb.

Definition axisRotations : list Move :=
  [X; XPrime; X2; Y; YPrime; Y2; Z; ZPrime; Z2].

(** The tokens each notation accepts, as the specification lists them. *)
Definition vocabulary (n : notation) : list Move :=
  match n with
  | WCA => [U; UPrime; R; RPrime; B; BPrime; L; LPrime] ++ axisRotations
  | Rubiskewb =>
      [R; RPrime; LittleR; LittleRPrime; B; BPrime; LittleB; LittleBPrime;
       L; LPrime; LittleL; LittleLPrime; F; FPrime; LittleF; LittleFPrime]
      ++ axisRotations
  end.

Definition tokenBody (n : notation) : Skewb -> string -> Skewb * option error :=
  match n with WCA => wcaToken | Rubiskewb => rubiskewbToken end.

Definition ApplyMoves (n : notation) : Skewb -> string -> Skewb * option error :=
  match n with WCA => ApplyWCAMoves | Rubiskewb => ApplyRubiskewbMoves end.

(** A sequence is valid in a notation when each of its tokens is in the
    vocabulary. *)
Definition validSequence (n : notation) (m : string) : Prop :=
  Forall (fun t => In t (vocabulary n)) (Split m space).

(** The state reached by running the loop body over tokens, errors aside. *)
Definition runTokens (body : Skewb -> string -> Skewb * option error)
    (tokens : list string) (s : Skewb) : Skewb :=
  fold_left (fun s t => fst (body s t)) tokens s.

Definition centerColors (s : Skewb) : list string :=
  [color (up s); color (front s); color (right s);
   color (back s); color (left s); color (down s)].

(** How many corners of [s] carry [layerColor]: the length of the slices
    [oneLayerMirror] builds. *)
Definition layerCount (s : Skewb) (layerColor : string) : nat :=
  length (fst (layerCorners s s layerColor)).

Definition solved : Skewb := New "white" "green" "red" "blue" "orange" "yellow".

Definition after (s : Skewb) (wcaMoves : string) : Skewb :=
  fst (ApplyWCAMoves s wcaMoves).

(** The five rotations [CenterDown] chooses from. *)
Definition CenterDown_rotations : list Move := [X2; XPrime; Z; X; ZPrime].

(** A state whose colours are not those of [solved]. *)
Definition lettered : Skewb := New "a" "b" "c" "d" "e" "f".

(** A rotation string is undone by its reverse. *)
Definition restoring (rotation : string) : Prop :=
  forall s, fst (ApplyWCAMoves (after s rotation) (createReverse rotation)) = s.

(** The orientations [FullMirror] compares: the one [other] comes in and
    one per rotation string. *)
Definition FullMirror_orientations (other : Skewb) : list Skewb :=
  other :: map (after other) FullMirror_rotations.

Fixpoint pairwiseDistinct (l : list Skewb) : bool :=
  match l with
  | [] => true
  | s :: r => negb (existsb (equal s) r) && pairwiseDistinct r
  end.

(** Whether a corner carries a colour: the test [index(...) != -1]. *)
Definition onCorner (c : string) (k : corner) : bool :=
  negb (Z.eqb (index (cornerColors k) c) (-1)).

(** The receiver and the argument once both calls of [CenterDown] at the
    head of [OneLayerMirror] have run (their errors are not looked at). *)
Definition receiverDown (a : Skewb) (layerColor : string) : Skewb :=
  fst (CenterDown a layerColor).

Definition otherDown (a b : Skewb) (layerColor : string) : Skewb :=
  fst (CenterDown b (color (down (receiverDown a layerColor)))).

(** The boolean a comparison that returned answered. *)
Definition answer (o : outcome bool) : bool :=
  match o with Returns true => true | _ => false end.

(** ** Further notions the properties below speak about *)

(** The face turns of a notation: its vocabulary without the axis
    rotations. *)
Definition faceTurns (n : notation) : list Move :=
  match n with
  | WCA => [U; UPrime; R; RPrime; B; BPrime; L; LPrime]
  | Rubiskewb =>
      [R; RPrime; LittleR; LittleRPrime; B; BPrime; LittleB; LittleBPrime;
       L; LPrime; LittleL; LittleLPrime; F; FPrime; LittleF; LittleFPrime]
  end.

(** The same colours under another name: [f] applied to every sticker. *)
Definition recolorCorner (f : string -> string) (k : corner) : corner :=
  mkCorner (mkCornerColors (f (first (colors k))) (f (second (colors k)))
                           (f (third (colors k)))).

Definition recolor (f : string -> string) (s : Skewb) : Skewb :=
  {| ufr := recolorCorner f (ufr s); urb := recolorCorner f (urb s);
     ulf := recolorCorner f (ulf s); ubl := recolorCorner f (ubl s);
     drf := recolorCorner f (drf s); dbr := recolorCorner f (dbr s);
     dfl := recolorCorner f (dfl s); dlb := recolorCorner f (dlb s);
     up := mkCenter (f (color (up s))); front := mkCenter (f (color (front s)));
     right := mkCenter (f (color (right s))); back := mkCenter (f (color (back s)));
     left := mkCenter (f (color (left s))); down := mkCenter (f (color (down s))) |}.

(** The WCA face turn written in the little-letter notation: the two
    [switch] statements dispatch these pairs to the same [applyMove] call. *)
Definition toRubiskewb (t : Move) : Move :=
  if String.eqb t U then B
  else if String.eqb t UPrime then BPrime
  else if String.eqb t R then LittleR
  else if String.eqb t RPrime then LittleRPrime
  else if String.eqb t B then LittleB
  else if String.eqb t BPrime then LittleBPrime
  else if String.eqb t L then LittleL
  else if String.eqb t LPrime then LittleLPrime
  else t.

(** [strings.Join(tokens, " ")], to write a sequence from its tokens. *)
Fixpoint Join (tokens : list string) : string :=
  match tokens with
  | [] => EmptyString
  | [t] => t
  | t :: rest => (t ++ " " ++ Join rest)%string
  end.

(** A WCA sequence rewritten token by token in the little-letter notation. *)
Definition translate (m : string) : string :=
  Join (map toRubiskewb (Split m space)).

(** The five centers [CenterDown] looks at before the down center. *)
Definition otherCenters (s : Skewb) : list string :=
  [color (up s); color (front s); color (right s);
   color (back s); color (left s)].

(** The four spins about the vertical axis, the first being no turn. *)
Definition spins (s : Skewb) : list Skewb :=
  [s; after s "y"; after s "y y"; after s "y y y"].

(** A renaming that keeps different colours different. *)
Definition injective (f : string -> string) : Prop :=
  forall x y, f x = f y -> x = y.

(** All the strings of a list, one after the other. *)
Definition concatAll (l : list string) : string :=
  fold_right String.append EmptyString l.


(** ** The generator ([algorithms/generate.go]) *)

Definition preMoves : list string :=
  ["x"; "x'"; "x2"; "y"; "y'"; "y2"; "z"; "z'"; "z2"].

Definition solveMoves : list string :=
  ["F"; "F'"; "f"; "f'"; "R"; "R'"; "r"; "r'"; "b"; "b'"].

(** [(m == a) || (m == b)] and its three-way form. *)
Definition isEither (m a b : string) : bool := String.eqb m a || String.eqb m b.

Definition isAnyOf (m a b c : string) : bool :=
  String.eqb m a || String.eqb m b || String.eqb m c.

Definition lastMoveIsDifferent (move1 move2 : string) : bool :=
  let move1 :=
    if Contains move1 space
    then let moveList := Split move1 space in last moveList EmptyString
    else move1 in
  if isEither move1 "U" "U'" && isEither move2 "U" "U'" then false
  else if isEither move1 "R" "R'" && isEither move2 "R" "R'" then false
  else if isEither move1 "r" "r'" && isEither move2 "r" "r'" then false
  else if isEither move1 "B" "B'" && isEither move2 "B" "B'" then false
  else if isEither move1 "b" "b'" && isEither move2 "b" "b'" then false
  else if isEither move1 "L" "L'" && isEither move2 "L" "L'" then false
  else if isEither move1 "l" "l'" && isEither move2 "l" "l'" then false
  else if isEither move1 "F" "F'" && isEither move2 "F" "F'" then false
  else if isEither move1 "f" "f'" && isEither move2 "f" "f'" then false
  else if isAnyOf move1 "x" "x'" "x2" && isAnyOf move2 "x" "x'" "x2" then false
  else if isAnyOf move1 "y" "y'" "y2" && isAnyOf move2 "y" "y'" "y2" then false
  else if isAnyOf move1 "z" "z'" "z2" && isAnyOf move2 "z" "z'" "z2" then false
  else true.

(** [len(strings.Split(m, " "))]. *)
Definition moveCount (m : string) : int := Z.of_nat (length (Split m space)).

(** The [if] at the head of both loops: the candidate is appended to the
    sequence so far, or stays the single move. *)
Definition candidate (previousMoves move : string) (currentIteration : int)
  : string :=
  if Z.eqb currentIteration 1%Z then
    if negb (String.eqb previousMoves EmptyString)
       && Z.eqb (moveCount previousMoves) currentIteration
       && lastMoveIsDifferent previousMoves move
    then Sprintf_v_v previousMoves move else move
  else
    if negb (String.eqb previousMoves EmptyString)
       && Z.eqb (moveCount previousMoves) (currentIteration - 1)%Z
       && lastMoveIsDifferent previousMoves move
    then Sprintf_v_v previousMoves move else move.

Definition generatorStart : Skewb :=
  New "#FFFFFFFF" "#00FF00FF" "#FF0000FF" "#0000FFFF" "#D67200FF" "#FBFF00FF".

(** The closure given to [slices.ContainsFunc] in [iteratorPreMoves]. *)
Definition samePreMove (move newMove : string) : bool :=
  let s1 := generatorStart in
  let s2 := generatorStart in
  let s1 := fst (ApplyRubiskewbMoves s1 move) in
  let s2 := fst (ApplyRubiskewbMoves s2 newMove) in
  ExactEqual s1 s2.

(** The closure given to [slices.ContainsFunc] in [iteratorSolveMoves]. *)
Definition sameUpToSpin (move newMove : string) : bool :=
  let s1 := generatorStart in
  let s2 := generatorStart in
  let s1 := fst (ApplyRubiskewbMoves s1 move) in
  let s2 := fst (ApplyRubiskewbMoves s2 newMove) in
  snd (Equal s1 s2).

(** [iteratorPreMoves], with the package variable [allPreMoves] passed in
    and out.  The recursion of the source ends when [currentIteration]
    reaches [maxIteration]; [fuel] bounds its depth and [None] means the
    bound was too small.  [currentIteration + 1] is taken in the integers:
    that is Go's 64-bit sum as long as [currentIteration] is below
    [maxIteration], the only case in which the properties below speak of a
    recursive call; past [maxIteration] Go's sum would eventually wrap
    around, and nothing is stated about that case. *)
Fixpoint iteratorPreMoves (fuel : nat) (previousMoves : string)
    (currentIteration maxIteration : int) (allPreMoves : list string)
  : option (list string) :=
  match fuel with
  | O => None
  | S fuel' =>
      fold_left
        (fun (acc : option (list string)) (move : string) =>
           match acc with
           | None => None
           | Some allPreMoves =>
               let move := candidate previousMoves move currentIteration in
               if negb (Z.eqb currentIteration maxIteration) then
                 iteratorPreMoves fuel' move (currentIteration + 1)%Z
                   maxIteration allPreMoves
               else if Z.eqb (moveCount move) maxIteration then
                 if negb (existsb (samePreMove move) allPreMoves)
                 then Some (allPreMoves ++ [move])
                 else Some allPreMoves
               else Some allPreMoves
           end)
        preMoves (Some allPreMoves)
  end.

(** [map[int][]string]: a missing key reads as the nil slice. *)
Definition solveTable := int -> list string.

Definition tableAppend (t : solveTable) (k : int) (move : string) : solveTable :=
  fun k' => if Z.eqb k' k then t k ++ [move] else t k'.

(** [for i := 0; i <= moveNumber; i++ { if ... { isIn = true; break } }]. *)
Definition isInLoop (moveNumber : int) (check : bool) : bool :=
  existsb (fun _ => check) (seq 0 (Z.to_nat (moveNumber + 1)%Z)).

Fixpoint iteratorSolveMoves (fuel : nat) (previousMoves : string)
    (currentIteration maxIteration : int) (allPreMoves : list string)
    (allSolveMoves : solveTable) : option solveTable :=
  match fuel with
  | O => None
  | S fuel' =>
      fold_left
        (fun (acc : option solveTable) (move : string) =>
           match acc with
           | None => None
           | Some allSolveMoves =>
               let move := candidate previousMoves move currentIteration in
               if negb (Z.eqb currentIteration maxIteration) then
                 iteratorSolveMoves fuel' move (currentIteration + 1)%Z
                   maxIteration allPreMoves allSolveMoves
               else
                 let moveNumber := moveCount move in
                 if Z.eqb moveNumber maxIteration then
                   let isIn :=
                     isInLoop moveNumber
                       (existsb (sameUpToSpin move) allPreMoves) in
                   if negb isIn
                   then Some (tableAppend allSolveMoves moveNumber move)
                   else Some allSolveMoves
                 else Some allSolveMoves
           end)
        solveMoves (Some allSolveMoves)
  end.

Definition bind {A B} (o : option A) (f : A -> option B) : option B :=
  match o with Some a => f a | None => None end.

(** The three calls at the head of [main]. *)
Definition mainPreMoves (fuel : nat) : option (list string) :=
  bind (iteratorPreMoves fuel EmptyString 1%Z 1%Z [EmptyString]) (fun a1 =>
  bind (iteratorPreMoves fuel EmptyString 1%Z 2%Z a1) (fun a2 =>
  iteratorPreMoves fuel EmptyString 1%Z 3%Z a2)).

Definition initialSolveMoves : solveTable :=
  fun k => if Z.eqb k 0%Z then [EmptyString] else [].

(** One round [i] of the loop of [main]: every sequence of round [i-1]
    is extended. *)
Definition solveRound (fuel : nat) (allPreMoves : list string) (i : int)
    (allSolveMoves : solveTable) : option solveTable :=
  fold_left
    (fun acc solveMove =>
       bind acc (iteratorSolveMoves fuel solveMove i i allPreMoves))
    (allSolveMoves (i - 1)%Z) (Some allSolveMoves).

(** The state a sequence leads the generator's start state to. *)
Definition reachedBy (m : string) : Skewb :=
  fst (ApplyRubiskewbMoves generatorStart m).

(** The loop [for i := 1; i <= 8; i++] of [main], cut after [rounds]
    rounds. *)
Definition mainSolveMoves (fuel rounds : nat) : option solveTable :=
  bind (mainPreMoves fuel) (fun allPreMoves =>
  fold_left (fun acc i => bind acc (solveRound fuel allPreMoves i))
            (map Z.of_nat (seq 1 rounds)) (Some initialSolveMoves)).

(** The index [getCornerRelativeColors] is meant to give a colour: the
    place of the first center, in the order up, front, right, back, left,
    down, that carries it; 0 when none does. *)
Fixpoint positionOf (c : string) (l : list string) (i : int) : option int :=
  match l with
  | [] => None
  | x :: r => if String.eqb c x then Some i else positionOf c r (i + 1)%Z
  end.

Definition centerIndex (s : Skewb) (c : string) : int :=
  match positionOf c (centerColors s) 0%Z with
  | Some i => i
  | None => 0%Z
  end.

(** The signature written out row by row: the face's own index, then the
    indices of the four corner stickers lying on that face. *)
Definition signatureTable (s : Skewb) : table :=
  let ix := centerIndex s in
  let c1 k := first (colors k) in
  let c2 k := second (colors k) in
  let c3 k := third (colors k) in
  [ [0%Z; ix (c1 (ufr s)); ix (c1 (urb s)); ix (c1 (ulf s)); ix (c1 (ubl s))];
    [1%Z; ix (c2 (ufr s)); ix (c3 (ulf s)); ix (c3 (drf s)); ix (c2 (dfl s))];
    [2%Z; ix (c3 (ufr s)); ix (c2 (urb s)); ix (c2 (drf s)); ix (c3 (dbr s))];
    [3%Z; ix (c3 (urb s)); ix (c2 (ubl s)); ix (c2 (dbr s)); ix (c3 (dlb s))];
    [4%Z; ix (c2 (ulf s)); ix (c3 (ubl s)); ix (c3 (dfl s)); ix (c2 (dlb s))];
    [5%Z; ix (c1 (drf s)); ix (c1 (dbr s)); ix (c1 (dfl s)); ix (c1 (dlb s))] ].

(** * Properties *)

(** ** Facts about the string helpers *)

Lemma string_append_assoc (a b c : string) :
  ((a ++ b) ++ c = a ++ (b ++ c))%string.
Proof. induction a as [|x a IH]; simpl; [reflexivity | now rewrite IH]. Qed.

Section SplitFacts.

Variable sep : ascii.

Lemma Split_not_nil (s : string) : Split s sep <> [].
Proof.
  destruct s as [|a r]; simpl; [discriminate|].
  destruct (Ascii.eqb a sep); [discriminate|].
  destruct (Split r sep); discriminate.
Qed.

Lemma Split_piece_then_sep (t r : string) :
  Contains t sep = false ->
  Split (t ++ String sep r) sep = t :: Split r sep.
Proof.
  induction t as [|a t IH]; simpl; intro H.
  - now rewrite Ascii.eqb_refl.
  - destruct (Ascii.eqb a sep); [discriminate|].
    now rewrite (IH H).
Qed.

Lemma Split_pieces_free (s : string) :
  Forall (fun t => Contains t sep = false) (Split s sep).
Proof.
  induction s as [|a r IH]; simpl.
  - repeat constructor.
  - destruct (Ascii.eqb a sep) eqn:E.
    + constructor; [reflexivity | exact IH].
    + destruct (Split r sep) as [|t ts]; inversion IH; subst;
        constructor; simpl; try rewrite E; auto.
Qed.

Lemma Contains_append (a b : string) :
  Contains (a ++ b) sep = Contains a sep || Contains b sep.
Proof.
  induction a as [|c a IH]; simpl; [reflexivity|].
  destruct (Ascii.eqb c sep); auto.
Qed.

Lemma Contains_ReplaceAll (s : string) (c : ascii) :
  Contains s sep = false -> Contains (ReplaceAll s c) sep = false.
Proof.
  induction s as [|a r IH]; simpl; [reflexivity|].
  destruct (Ascii.eqb a sep) eqn:E; [discriminate|]. intro H.
  destruct (Ascii.eqb a c); simpl; [|rewrite E]; auto.
Qed.

Lemma lastByte_append_sep (r : string) :
  lastByte (r ++ String sep EmptyString) = Some sep.
Proof.
  induction r as [|a r IH]; simpl; [reflexivity|].
  rewrite IH. destruct r; reflexivity.
Qed.

End SplitFacts.

(** ** The shape of a reversed sequence *)

Lemma reverseMove_free (t : string) :
  Contains t space = false -> Contains (reverseMove t) space = false.
Proof.
  intro H. unfold reverseMove.
  destruct (Contains t apostrophe).
  - now apply Contains_ReplaceAll.
  - destruct (Contains t two); simpl; [assumption|].
    rewrite Contains_append, H. reflexivity.
Qed.

Lemma Split_reverse_fold (tokens : list string) (acc : string) :
  Forall (fun t => Contains t space = false) tokens ->
  Split (fold_left (fun reverse move => Sprintf_v_v (reverseMove move) reverse)
           tokens acc) space
  = rev (map reverseMove tokens) ++ Split acc space.
Proof.
  revert acc. induction tokens as [|t ts IH]; intros acc H; simpl.
  - reflexivity.
  - inversion H as [|? ? Ht Hts]; subst.
    rewrite (IH _ Hts). unfold Sprintf_v_v.
    change (" " ++ acc)%string with (String space acc).
    rewrite Split_piece_then_sep by now apply reverseMove_free.
    now rewrite <- app_assoc.
Qed.

(** The tokens of [createReverse m]: the reversed moves of [m], last to
    first, and then one empty token for the separator the last [Sprintf]
    leaves at the end. *)
Lemma Split_createReverse (m : string) :
  Split (createReverse m) space
  = rev (map reverseMove (Split m space)) ++ [EmptyString].
Proof.
  unfold createReverse. now rewrite Split_reverse_fold by apply Split_pieces_free.
Qed.

Lemma reverse_fold_ends_with_space (tokens : list string) (acc : string) :
  (exists r, acc = (r ++ " ")%string) ->
  exists r, fold_left (fun reverse move => Sprintf_v_v (reverseMove move) reverse)
              tokens acc = (r ++ " ")%string.
Proof.
  revert acc. induction tokens as [|t ts IH]; intros acc [r Hr]; simpl.
  - now exists r.
  - apply IH. exists (reverseMove t ++ " " ++ r)%string. subst acc.
    unfold Sprintf_v_v.
    now rewrite !string_append_assoc.
Qed.

Lemma createReverse_ends_with_space (m : string) :
  exists r, createReverse m = (r ++ " ")%string.
Proof.
  unfold createReverse.
  destruct (Split m space) as [|t ts] eqn:E; [now apply Split_not_nil in E|].
  simpl. apply reverse_fold_ends_with_space.
  exists (reverseMove t). unfold Sprintf_v_v.
  reflexivity.
Qed.

(** ** Deciding validity *)

Lemma oneOf_In (t : Move) (cases : list Move) : oneOf t cases = true <-> In t cases.
Proof.
  unfold oneOf. rewrite existsb_exists. split.
  - intros [x [Hx E]]. apply String.eqb_eq in E. now subst.
  - intro H. exists t. split; [assumption | apply String.eqb_refl].
Qed.

Lemma validSequence_check (n : notation) (m : string) :
  forallb (fun t => oneOf t (vocabulary n)) (Split m space) = true ->
  validSequence n m.
Proof.
  intro H. apply Forall_forall. intros t Ht.
  apply oneOf_In. rewrite forallb_forall in H. now apply H.
Qed.

Ltac valid_sequence := apply validSequence_check; vm_compute; reflexivity.

(** ** Tokens and their reverses *)

(** Name every colour of a state. *)
Ltac expose s :=
  destruct s as [[[? ? ?]] [[? ? ?]] [[? ? ?]] [[? ? ?]]
                 [[? ? ?]] [[? ? ?]] [[? ? ?]] [[? ? ?]]
                 [?] [?] [?] [?] [?] [?]].

(** Run [tac] once for every member of a literal list. *)
Ltac each_member H tac :=
  simpl in H;
  repeat (destruct H as [H | H]; [symmetry in H; subst; tac | ]);
  try contradiction.

Lemma token_accepted (n : notation) (t : string) :
  In t (vocabulary n) -> forall s, snd (tokenBody n s t) = None.
Proof.
  intros H s. destruct n; each_member H ltac:(reflexivity).
Qed.

Lemma reverse_in_vocabulary (n : notation) (t : string) :
  In t (vocabulary n) -> In (reverseMove t) (vocabulary n).
Proof.
  intros H. destruct n; each_member H ltac:(vm_compute; tauto).
Qed.

(** A token followed by its reverse leaves every colour where it was. *)
Lemma token_then_reverse (n : notation) (t : string) :
  In t (vocabulary n) ->
  forall s, fst (tokenBody n (fst (tokenBody n s t)) (reverseMove t)) = s.
Proof.
  intros H s. expose s.
  destruct n; each_member H ltac:(vm_compute; reflexivity).
Qed.

(** Anything outside the vocabulary takes the [default] clause. *)
Lemma token_rejected (n : notation) (t : string) :
  ~ In t (vocabulary n) ->
  forall s, tokenBody n s t = (s, Some (Sprintf_v_v t ErrWCAMove)).
Proof.
  intros H s.
  assert (D : match n with WCA => wcaDirection t | Rubiskewb => rubiskewbDirection t end
              = None).
  { destruct n; unfold wcaDirection, rubiskewbDirection, oneOf;
      repeat match goal with
        | |- context [existsb ?f ?l] =>
            let E := fresh "E" in
            destruct (existsb f l) eqn:E;
            [ exfalso; apply H; apply existsb_exists in E;
              destruct E as [x [Hx Ex]]; apply String.eqb_eq in Ex; subst x;
              simpl in Hx |- *; tauto | ]
        end; reflexivity. }
  destruct n; simpl in *; unfold wcaToken, rubiskewbToken; now rewrite D.
Qed.

(** ** The token loop *)

Section TokenLoop.

Variable body : Skewb -> string -> Skewb * option error.

Lemma applyTokens_accepted (tokens : list string) (s : Skewb) :
  Forall (fun t => forall s, snd (body s t) = None) tokens ->
  applyTokens body tokens s = (runTokens body tokens s, None).
Proof.
  revert s. induction tokens as [|t ts IH]; intros s H; simpl; [reflexivity|].
  inversion H as [|? ? Ht Hts]; subst.
  specialize (Ht s). destruct (body s t) as [s' [e|]]; simpl in *;
    [discriminate | now apply IH].
Qed.

(** The loop over [pre ++ bad :: rest]: when the tokens of [pre] are
    accepted and [bad] is not, the call returns at [bad]. *)
Lemma applyTokens_stops (pre rest : list string) (bad : string) (e : error)
    (s : Skewb) :
  Forall (fun t => forall s, snd (body s t) = None) pre ->
  (forall s, body s bad = (s, Some e)) ->
  applyTokens body (pre ++ bad :: rest) s = (runTokens body pre s, Some e).
Proof.
  revert s. induction pre as [|t ts IH]; intros s H Hbad; simpl.
  - now rewrite Hbad.
  - inversion H as [|? ? Ht Hts]; subst.
    specialize (Ht s). destruct (body s t) as [s' [e'|]]; simpl in *;
      [discriminate | now apply IH].
Qed.

Lemma runTokens_app (a b : list string) (s : Skewb) :
  runTokens body (a ++ b) s = runTokens body b (runTokens body a s).
Proof. apply fold_left_app. Qed.

(** Running tokens and then their reverses, last to first, is the
    identity as soon as each token is undone by its reverse. *)
Lemma runTokens_reverse (tokens : list string) (s : Skewb) :
  Forall (fun t => forall s, fst (body (fst (body s t)) (reverseMove t)) = s)
         tokens ->
  runTokens body (rev (map reverseMove tokens)) (runTokens body tokens s) = s.
Proof.
  revert s. induction tokens as [|t ts IH]; intros s H; simpl; [reflexivity|].
  inversion H as [|? ? Ht Hts]; subst.
  rewrite runTokens_app. change (runTokens body (t :: ts) s)
    with (runTokens body ts (fst (body s t))).
  rewrite (IH _ Hts). simpl. apply Ht.
Qed.

End TokenLoop.

Lemma ApplyMoves_unfold (n : notation) (s : Skewb) (m : string) :
  ApplyMoves n s m = applyTokens (tokenBody n) (Split m space) s.
Proof. destruct n; reflexivity. Qed.

Lemma empty_token_rejected (n : notation) :
  forall s, tokenBody n s EmptyString
            = (s, Some (Sprintf_v_v EmptyString ErrWCAMove)).
Proof. destruct n; reflexivity. Qed.

(** Applying a valid sequence succeeds. *)
Lemma ApplyMoves_valid (n : notation) (s : Skewb) (m : string) :
  validSequence n m ->
  ApplyMoves n s m = (runTokens (tokenBody n) (Split m space) s, None).
Proof.
  intro H. rewrite ApplyMoves_unfold. apply applyTokens_accepted.
  eapply Forall_impl; [|exact H]. intros t Ht. now apply token_accepted.
Qed.

(** Applying the reverse of a valid sequence runs every reversed token and
    then returns the error for the empty token at the end. *)
Lemma ApplyMoves_createReverse (n : notation) (s : Skewb) (m : string) :
  validSequence n m ->
  ApplyMoves n s (createReverse m)
  = (runTokens (tokenBody n) (rev (map reverseMove (Split m space))) s,
     Some (Sprintf_v_v EmptyString ErrWCAMove)).
Proof.
  intro H. rewrite ApplyMoves_unfold, Split_createReverse.
  apply applyTokens_stops; [|apply empty_token_rejected].
  apply Forall_rev, Forall_map.
  eapply Forall_impl; [|exact H]. intros t Ht.
  apply token_accepted. now apply reverse_in_vocabulary.
Qed.

(** The state after a valid sequence and its reverse. *)
Lemma sequence_then_reverse (n : notation) (s : Skewb) (m : string) :
  validSequence n m ->
  fst (ApplyMoves n (fst (ApplyMoves n s m)) (createReverse m)) = s.
Proof.
  intro H. rewrite (ApplyMoves_valid n s m H). simpl.
  rewrite (ApplyMoves_createReverse n _ m H). simpl.
  apply runTokens_reverse.
  eapply Forall_impl; [|exact H]. intros t Ht. now apply token_then_reverse.
Qed.

(** ** Exact equality *)

Lemma array3_eqb_eq (a b : array3 string) : array3_eqb a b = true <-> a = b.
Proof.
  destruct a as [[a0 a1] a2], b as [[b0 b1] b2]. unfold array3_eqb; simpl.
  rewrite !andb_true_iff, !String.eqb_eq. split.
  - intros [[-> ->] ->]. reflexivity.
  - intros E. inversion E. auto.
Qed.

Lemma cornerColors_inj (c d : corner) : cornerColors c = cornerColors d -> c = d.
Proof.
  destruct c as [[? ? ?]], d as [[? ? ?]]. unfold cornerColors; simpl.
  intros E. inversion E. reflexivity.
Qed.

Lemma color_inj (c d : center) : color c = color d -> c = d.
Proof. destruct c, d; simpl; now intros ->. Qed.

Lemma equal_refl (s : Skewb) : equal s s = true.
Proof.
  unfold equal, GetUFRCornerColors, GetURBCornerColors, GetULFCornerColors,
    GetUBLCornerColors, GetDRFCornerColors, GetDBRCornerColors,
    GetDFLCornerColors, GetDLBCornerColors, GetUpCenterColor,
    GetFrontCenterColor, GetRightCenterColor, GetBackCenterColor,
    GetLeftCenterColor, GetDownCenterColor.
  repeat match goal with
    | |- context [array3_eqb ?a ?a] =>
        rewrite (proj2 (array3_eqb_eq a a) eq_refl)
    end.
  rewrite !String.eqb_refl. reflexivity.
Qed.

(** [equal] answers true exactly on identical states. *)
Lemma equal_true_iff (s other : Skewb) : equal s other = true <-> s = other.
Proof.
  split; [|intros ->; apply equal_refl].
  unfold equal, GetUFRCornerColors, GetURBCornerColors, GetULFCornerColors,
    GetUBLCornerColors, GetDRFCornerColors, GetDBRCornerColors,
    GetDFLCornerColors, GetDLBCornerColors, GetUpCenterColor,
    GetFrontCenterColor, GetRightCenterColor, GetBackCenterColor,
    GetLeftCenterColor, GetDownCenterColor.
  repeat match goal with
    | |- context [array3_eqb ?a ?b] =>
        let E := fresh "E" in
        destruct (array3_eqb a b) eqn:E; simpl;
        [apply array3_eqb_eq, cornerColors_inj in E | discriminate]
    | |- context [String.eqb ?a ?b] =>
        let E := fresh "E" in
        destruct (String.eqb a b) eqn:E; simpl;
        [apply String.eqb_eq, color_inj in E | discriminate]
    end.
  intros _. destruct s, other; simpl in *. subst. reflexivity.
Qed.

Lemma ExactEqual_true_iff (s other : Skewb) : ExactEqual s other = true <-> s = other.
Proof. apply equal_true_iff. Qed.

(** ** The rotation laws the specification tests *)

(** Four quarter turns about an axis, and two half turns, are the
    identity; a half turn is two quarter turns. *)
Lemma order_four (s : Skewb) :
  after s "x x x x" = s /\ after s "y y y y" = s /\ after s "z z z z" = s
  /\ after s "x2 x2" = s /\ after s "y2 y2" = s /\ after s "z2 z2" = s.
Proof. expose s. repeat split; vm_compute; reflexivity. Qed.

Lemma double_turn (s : Skewb) :
  after s "x2" = after s "x x" /\ after s "y2" = after s "y y"
  /\ after s "z2" = after s "z z".
Proof. expose s. repeat split; vm_compute; reflexivity. Qed.

(** [Equal] sees through a spin that [ExactEqual] does not. *)
Example Equal_vs_ExactEqual :
  snd (Equal solved (after solved "y")) = true
  /\ ExactEqual solved (after solved "y") = false.
Proof. split; vm_compute; reflexivity. Qed.

(** * The claims *)

(** ** C1: inverse law *)

(** C1.  For every state [s], each notation [n] and every move sequence
    [m] whose tokens all belong to the vocabulary of [n]: applying [m]
    succeeds, and applying [m] and then [createReverse m] leaves a state
    that is identical to [s], so that [ExactEqual] answers true on it. *)
Theorem inverse_law (n : notation) (s : Skewb) (m : string) :
  validSequence n m ->
  snd (ApplyMoves n s m) = None
  /\ fst (ApplyMoves n (fst (ApplyMoves n s m)) (createReverse m)) = s
  /\ ExactEqual s (fst (ApplyMoves n (fst (ApplyMoves n s m)) (createReverse m)))
     = true.
Proof.
  intro H. split; [|split].
  - now rewrite (ApplyMoves_valid n s m H).
  - now apply sequence_then_reverse.
  - apply ExactEqual_true_iff. symmetry. now apply sequence_then_reverse.
Qed.

Lemma inverse_law_witness :
  validSequence WCA "R U' x2 z"
  /\ snd (ApplyMoves WCA solved "R U' x2 z") = None
  /\ fst (ApplyMoves WCA (fst (ApplyMoves WCA solved "R U' x2 z"))
            (createReverse "R U' x2 z")) = solved
  /\ ExactEqual solved
       (fst (ApplyMoves WCA (fst (ApplyMoves WCA solved "R U' x2 z"))
               (createReverse "R U' x2 z"))) = true.
Proof.
  assert (V : validSequence WCA "R U' x2 z")
    by valid_sequence.
  split; [exact V | exact (inverse_law WCA solved "R U' x2 z" V)].
Defined.

(** The law in the little-letter notation, on a concrete sequence. *)
Example rubiskewb_sequence_and_reverse :
  fst (ApplyRubiskewbMoves (fst (ApplyRubiskewbMoves solved "f r' B l y2"))
         (createReverse "f r' B l y2")) = solved.
Proof. reflexivity. Qed.

(** ** C3: partial application on error *)

(** C3.  On every state, [ApplyWCAMoves] on ["R Q"] returns the
    unsupported-move error whose text starts with the token [Q], and the
    state it leaves is the one ["R"] alone produces (which ["R"] reaches
    without error); whatever follows [Q] in the sequence is never looked
    at.  On the solved puzzle that state differs from the initial one. *)
Theorem partial_application_R_Q (s : Skewb) :
  ApplyWCAMoves s "R Q"
  = (fst (ApplyWCAMoves s "R"), Some (Sprintf_v_v "Q" ErrWCAMove))
  /\ snd (ApplyWCAMoves s "R") = None
  /\ (forall rest : string,
        ApplyWCAMoves s ("R Q " ++ rest) = ApplyWCAMoves s "R Q")
  /\ String.prefix "Q " (Sprintf_v_v "Q" ErrWCAMove) = true
  /\ ExactEqual solved (fst (ApplyWCAMoves solved "R Q")) = false.
Proof.
  assert (HR : Forall (fun t => forall s, snd (wcaToken s t) = None) ["R"])
    by (repeat constructor).
  assert (HQ : forall s, wcaToken s "Q" = (s, Some (Sprintf_v_v "Q" ErrWCAMove)))
    by reflexivity.
  split; [|split; [|split; [|split]]].
  - exact (applyTokens_stops wcaToken ["R"] [] "Q" _ s HR HQ).
  - reflexivity.
  - intro rest. unfold ApplyWCAMoves.
    change ("R Q " ++ rest)%string with ("R" ++ String space ("Q" ++ String space rest))%string.
    rewrite !Split_piece_then_sep by reflexivity.
    change ("R" :: "Q" :: Split rest space)
      with (["R"] ++ "Q" :: Split rest space).
    rewrite (applyTokens_stops wcaToken ["R"] (Split rest space) "Q" _ s HR HQ).
    symmetry. exact (applyTokens_stops wcaToken ["R"] [] "Q" _ s HR HQ).
  - reflexivity.
  - reflexivity.
Qed.

(** ** C10: the separator at the end of a reversed sequence *)

Lemma applyTokens_ends_empty (n : notation) (tokens : list string) (s : Skewb) :
  exists t, snd (applyTokens (tokenBody n) (tokens ++ [EmptyString]) s)
            = Some (Sprintf_v_v t ErrWCAMove).
Proof.
  revert s. induction tokens as [|t ts IH]; intro s; simpl.
  - exists EmptyString. now rewrite empty_token_rejected.
  - destruct (in_dec string_dec t (vocabulary n)) as [Hin|Hout].
    + pose proof (token_accepted n t Hin s) as A.
      destruct (tokenBody n s t) as [s' [e|]]; simpl in A; [discriminate|].
      apply IH.
    + rewrite (token_rejected n t Hout s). now exists t.
Qed.

(** C10.  For every move sequence [m] (empty or not) the string
    [createReverse m] ends with the separator, so its last token is the
    empty string and [ApplyWCAMoves] on it always returns an
    unsupported-move error; when [m] is a valid WCA sequence that error is
    the one for the empty token, and the state returned with it has every
    reversed token of [m] applied. *)
Theorem reverse_ends_with_separator (m : string) :
  lastByte (createReverse m) = Some space
  /\ last (Split (createReverse m) space) "?" = EmptyString
  /\ (forall s, exists t,
        snd (ApplyWCAMoves s (createReverse m)) = Some (Sprintf_v_v t ErrWCAMove))
  /\ (validSequence WCA m ->
      forall s,
        ApplyWCAMoves s (createReverse m)
        = (runTokens wcaToken (rev (map reverseMove (Split m space))) s,
           Some (Sprintf_v_v EmptyString ErrWCAMove))).
Proof.
  split; [|split; [|split]].
  - destruct (createReverse_ends_with_space m) as [r ->].
    apply lastByte_append_sep.
  - rewrite Split_createReverse. apply last_last.
  - intro s. unfold ApplyWCAMoves. rewrite Split_createReverse.
    apply (applyTokens_ends_empty WCA).
  - intros H s. exact (ApplyMoves_createReverse WCA s m H).
Qed.

Lemma reverse_ends_with_separator_witness :
  validSequence WCA "U x'"
  /\ createReverse "U x'" = "x U' "
  /\ ApplyWCAMoves solved (createReverse "U x'")
     = (runTokens wcaToken ["x"; "U'"] solved,
        Some (Sprintf_v_v EmptyString ErrWCAMove)).
Proof.
  assert (V : validSequence WCA "U x'")
    by valid_sequence.
  split; [exact V | split; [reflexivity|]].
  exact (proj2 (proj2 (proj2 (reverse_ends_with_separator "U x'"))) V solved).
Defined.

(** ** C8: bringing a colour to the down center *)

Ltac split_on_eqb :=
  match goal with
  | |- context [String.eqb ?a ?b] =>
      let E := fresh "E" in destruct (String.eqb a b) eqn:E
  end.

(** A colour held by a center is brought to the down center, by at most
    one rotation and without error. *)
Lemma CenterDown_present (s : Skewb) (c : string) :
  In c (centerColors s) ->
  snd (CenterDown s c) = None
  /\ color (down (fst (CenterDown s c))) = c
  /\ (fst (CenterDown s c) = s
      \/ exists r, In r CenterDown_rotations
                   /\ fst (CenterDown s c) = fst (ApplyWCAMoves s r)).
Proof.
  expose s. unfold CenterDown, centerColors, CenterDown_rotations, Sprintf_v.
  cbn [color up front right back left down].
  intro H.
  split_on_eqb; [|split_on_eqb; [|split_on_eqb; [|split_on_eqb;
    [|split_on_eqb; [|split_on_eqb]]]]];
    try match goal with
        | T : String.eqb _ c = true |- _ => apply String.eqb_eq in T; subst c
        end.
  - split; [reflexivity | split; [reflexivity | right]].
    exists X2. split; [simpl; tauto | reflexivity].
  - split; [reflexivity | split; [reflexivity | right]].
    exists XPrime. split; [simpl; tauto | reflexivity].
  - split; [reflexivity | split; [reflexivity | right]].
    exists Z. split; [simpl; tauto | reflexivity].
  - split; [reflexivity | split; [reflexivity | right]].
    exists X. split; [simpl; tauto | reflexivity].
  - split; [reflexivity | split; [reflexivity | right]].
    exists ZPrime. split; [simpl; tauto | reflexivity].
  - split; [reflexivity | split; [reflexivity | left; reflexivity]].
  - exfalso.
    repeat match goal with
           | E : String.eqb _ _ = false |- _ => apply String.eqb_neq in E
           end.
    simpl in H. intuition congruence.
Qed.

(** A colour no center holds is reported and the state is not touched. *)
Lemma CenterDown_absent (s : Skewb) (c : string) :
  ~ In c (centerColors s) ->
  CenterDown s c = (s, Some (Sprintf_v_v c ErrColor)).
Proof.
  expose s. unfold CenterDown, centerColors.
  cbn [color up front right back left down].
  intro H.
  repeat (split_on_eqb;
          [exfalso; apply H;
           match goal with
           | T : String.eqb _ c = true |- _ => apply String.eqb_eq in T
           end; simpl; tauto|]).
  reflexivity.
Qed.

(** C8.  For every state [s] and colour [c]: when one of the six centers
    of [s] holds [c], [CenterDown] returns no error, the down center holds
    [c] afterwards, and the new state is [s] itself or [s] after one of the
    rotations x2, x', z, x, z'; when no center holds [c], [CenterDown]
    returns the color-not-found error for [c] and leaves [s] as it was. *)
Theorem CenterDown_spec (s : Skewb) (c : string) :
  (In c (centerColors s) ->
     snd (CenterDown s c) = None
     /\ color (down (fst (CenterDown s c))) = c
     /\ (fst (CenterDown s c) = s
         \/ exists r, In r CenterDown_rotations
                      /\ fst (CenterDown s c) = fst (ApplyWCAMoves s r)))
  /\ (~ In c (centerColors s) ->
      CenterDown s c = (s, Some (Sprintf_v_v c ErrColor))).
Proof.
  split; [apply CenterDown_present | apply CenterDown_absent].
Qed.

Lemma CenterDown_spec_witness :
  In "yellow" (centerColors (after solved "z"))
  /\ ~ In "purple" (centerColors solved)
  /\ (snd (CenterDown (after solved "z") "yellow") = None
      /\ color (down (fst (CenterDown (after solved "z") "yellow"))) = "yellow"
      /\ (fst (CenterDown (after solved "z") "yellow") = after solved "z"
          \/ exists r, In r CenterDown_rotations
                       /\ fst (CenterDown (after solved "z") "yellow")
                          = fst (ApplyWCAMoves (after solved "z") r)))
  /\ CenterDown solved "purple" = (solved, Some (Sprintf_v_v "purple" ErrColor)).
Proof.
  assert (Hin : In "yellow" (centerColors (after solved "z")))
    by (vm_compute; tauto).
  assert (Hout : ~ In "purple" (centerColors solved)).
  { intro H. vm_compute in H.
    repeat (destruct H as [H | H]; [discriminate H|]). exact H. }
  split; [exact Hin | split; [exact Hout | split]].
  - exact (proj1 (CenterDown_spec (after solved "z") "yellow") Hin).
  - exact (proj2 (CenterDown_spec solved "purple") Hout).
Defined.

(** The example of the specification: the down colour, moved to the left
    center by [z], is brought back. *)
Example CenterDown_example :
  color (left (after solved "z")) = "yellow"
  /\ fst (CenterDown (after solved "z") "yellow") = solved.
Proof. split; reflexivity. Qed.

(** ** C4 and C6: what [Equal] does to its argument *)

Lemma down_after_y (s : Skewb) : color (down (after s "y")) = color (down s).
Proof. expose s. reflexivity. Qed.

Lemma equal_false_down (s other : Skewb) :
  color (down s) <> color (down other) -> equal s other = false.
Proof.
  intro H. destruct (equal s other) eqn:E; [|reflexivity].
  apply equal_true_iff in E. now subst.
Qed.

Lemma three_quarter_turns (s : Skewb) :
  after (after (after s "y") "y") "y" = after s "y y y".
Proof. expose s. reflexivity. Qed.

(** C4.  [Equal] leaves its argument in the spin the search stopped at.
    With [a] solved and [b] a copy with one ["y"] applied, [Equal] answers
    true and [b] is afterwards not exactly equal to what it was; with [b]
    a copy with ["R"] applied, [Equal] answers false and [b] is again not
    exactly equal to what it was. *)
Theorem Equal_does_not_restore :
  (snd (Equal solved (after solved "y")) = true
   /\ ExactEqual (after solved "y") (fst (Equal solved (after solved "y"))) = false)
  /\ (snd (Equal solved (after solved "R")) = false
      /\ ExactEqual (after solved "R") (fst (Equal solved (after solved "R"))) = false).
Proof. repeat split; reflexivity. Qed.

(** Where the true answer leaves [b]: in the spin of [a]. *)
Example Equal_leaves_matching_spin :
  fst (Equal solved (after solved "y")) = solved.
Proof. reflexivity. Qed.

(** C6, as the code has it.  When the down colour of [a] is on none of the
    centers of [b], the call of [CenterDown] inside [Equal] fails with the
    color-not-found error, [Equal] drops that error, and its whole result
    is the answer false with [b] turned by three ["y"] quarter turns. *)
Theorem Equal_drops_color_error (a b : Skewb) :
  ~ In (color (down a)) (centerColors b) ->
  snd (CenterDown b (color (down a)))
  = Some (Sprintf_v_v (color (down a)) ErrColor)
  /\ Equal a b = (after b "y y y", notEqual).
Proof.
  intro H.
  assert (Hd : color (down a) <> color (down b)).
  { intro E. apply H. rewrite E. unfold centerColors. simpl. tauto. }
  split; [now rewrite CenterDown_absent|].
  unfold Equal. rewrite (CenterDown_absent b _ H). cbn [fst].
  rewrite (equal_false_down a b Hd).
  unfold EqualLoop, Sprintf_v, Y.
  change (fst (ApplyWCAMoves b "y")) with (after b "y").
  rewrite (equal_false_down a (after b "y")) by now rewrite down_after_y.
  change (fst (ApplyWCAMoves (after b "y") "y")) with (after (after b "y") "y").
  rewrite (equal_false_down a (after (after b "y") "y"))
    by now rewrite !down_after_y.
  change (fst (ApplyWCAMoves (after (after b "y") "y") "y"))
    with (after (after (after b "y") "y") "y").
  rewrite (equal_false_down a (after (after (after b "y") "y") "y"))
    by now rewrite !down_after_y.
  now rewrite three_quarter_turns.
Qed.

Lemma Equal_drops_color_error_witness :
  ~ In (color (down solved)) (centerColors lettered)
  /\ snd (CenterDown lettered (color (down solved)))
     = Some (Sprintf_v_v (color (down solved)) ErrColor)
  /\ Equal solved lettered = (after lettered "y y y", notEqual).
Proof.
  assert (Hout : ~ In (color (down solved)) (centerColors lettered)).
  { intro H. vm_compute in H.
    repeat (destruct H as [H | H]; [discriminate H|]). exact H. }
  split; [exact Hout | exact (Equal_drops_color_error solved lettered Hout)].
Defined.

(** C6 as stated fails: the down colour of [solved] is on no center of
    [lettered] and [CenterDown] reports it, yet all [Equal] returns is the
    boolean false, the very answer it gives for [solved] against a copy
    with ["R"] applied, where the colour is found. *)
Lemma Equal_signals_no_error :
  ~ In (color (down solved)) (centerColors lettered)
  /\ snd (CenterDown lettered (color (down solved)))
     = Some (Sprintf_v_v "yellow" ErrColor)
  /\ snd (Equal solved lettered) = false
  /\ snd (CenterDown (after solved "R") (color (down solved))) = None
  /\ snd (Equal solved (after solved "R")) = snd (Equal solved lettered).
Proof.
  split; [|repeat split; reflexivity].
  intro H. vm_compute in H.
  repeat (destruct H as [H | H]; [discriminate H|]). exact H.
Qed.

(** ** C9: the text of the unsupported-move error *)

(** C9 at a token the little-letter notation rejects.  On every state
    [ApplyRubiskewbMoves] answers ["U"] with the text of [ErrWCAMove] after
    the token: that text lists ["U"], which the call has just refused, and
    does not list ["f"], which the same operation accepts.  The token
    itself does open the message. *)
Theorem rubiskewb_error_lists_wca_vocabulary (s : Skewb) :
  ApplyRubiskewbMoves s "U" = (s, Some (Sprintf_v_v "U" ErrWCAMove))
  /\ String.prefix "U " (Sprintf_v_v "U" ErrWCAMove) = true
  /\ hasSubstring (quoted "U") ErrWCAMove = true
  /\ hasSubstring (quoted "f") ErrWCAMove = false
  /\ snd (ApplyRubiskewbMoves s "f") = None
  /\ ApplyWCAMoves s "Q" = (s, Some (Sprintf_v_v "Q" ErrWCAMove)).
Proof. repeat split; reflexivity. Qed.

(** Every token outside a notation's vocabulary gets the same text. *)
Lemma unknown_token_error (n : notation) (s : Skewb) (t : string) :
  Contains t space = false -> ~ In t (vocabulary n) ->
  ApplyMoves n s t = (s, Some (Sprintf_v_v t ErrWCAMove)).
Proof.
  intros Hfree Hout. rewrite ApplyMoves_unfold.
  assert (E : Split t space = [t]).
  { clear Hout. induction t as [|a t IH]; simpl in *; [reflexivity|].
    destruct (Ascii.eqb a space); [discriminate|]. now rewrite (IH Hfree). }
  rewrite E. simpl. now rewrite (token_rejected n t Hout s).
Qed.

(** ** C2: the search of [FullMirror] *)

Lemma FullMirror_rotations_restoring : Forall restoring FullMirror_rotations.
Proof.
  apply Forall_forall. intros r H s.
  apply (sequence_then_reverse WCA s r).
  each_member H ltac:(valid_sequence).
Qed.

Lemma OneLayerMirror_rotations_restoring :
  Forall restoring OneLayerMirror_rotations.
Proof.
  apply Forall_forall. intros r H s.
  apply (sequence_then_reverse WCA s r).
  each_member H ltac:(valid_sequence).
Qed.

(** The loop hands [other] back as it received it and answers whether some
    rotation of the list makes the signatures agree. *)
Lemma FullMirrorLoop_spec (rotations : list string) (s other : Skewb) :
  Forall restoring rotations ->
  FullMirrorLoop rotations s other
  = (other, existsb (fun r => fullMirror s (after other r)) rotations).
Proof.
  induction rotations as [|r rs IH]; intro H; simpl; [reflexivity|].
  inversion H as [|? ? Hr Hrs]; subst.
  change (fst (ApplyWCAMoves other r)) with (after other r).
  rewrite (Hr other).
  destruct (fullMirror s (after other r)); simpl; [reflexivity | now apply IH].
Qed.

(** C2, as the code has it.  The list holds 23 rotation strings.  For all
    states [a] and [b], [FullMirror] hands [b] back exactly as it was (each
    rotation is undone by its reverse, after a match as well as after a
    mismatch) and answers true exactly when the signature of [a] equals
    that of [b], unrotated or after one of the 23 rotations: 24
    comparisons in all, which on the solved puzzle are 24 different
    orientations. *)
Theorem FullMirror_spec (a b : Skewb) :
  length FullMirror_rotations = 23
  /\ FullMirror a b
     = (b, fullMirror a b
           || existsb (fun r => fullMirror a (after b r)) FullMirror_rotations)
  /\ length (FullMirror_orientations solved) = 24
  /\ pairwiseDistinct (FullMirror_orientations solved) = true.
Proof.
  split; [reflexivity | split; [|split; vm_compute; reflexivity]].
  unfold FullMirror. destruct (fullMirror a b); cbn [orb]; [reflexivity|].
  apply FullMirrorLoop_spec, FullMirror_rotations_restoring.
Qed.

(** C2 as stated fails: the list [FullMirror] walks has 23 entries, not
    24; on the solved puzzle against a copy with ["R"] applied the answer
    false comes after those 23. *)
Lemma FullMirror_list_is_not_24 :
  length FullMirror_rotations <> 24
  /\ fullMirror solved (after solved "R") = false
  /\ FullMirror solved (after solved "R")
     = FullMirrorLoop FullMirror_rotations solved (after solved "R")
  /\ FullMirror solved (after solved "R") = (after solved "R", false).
Proof.
  split; [discriminate|].
  split; [vm_compute; reflexivity|].
  split; vm_compute; reflexivity.
Qed.

(** The invariance the specification tests: a rotated copy of the solved
    puzzle, and a recoloured solved puzzle, are mirrors of it. *)
Example FullMirror_invariance :
  forallb (fun r => snd (FullMirror solved (after solved r))) FullMirror_rotations
  = true
  /\ snd (FullMirror solved lettered) = true.
Proof. split; vm_compute; reflexivity. Qed.

(** ** When the layer pattern can be computed *)

(** The first [switch] and the loop of [getLayerColor] only index rows
    that exist when there are one to four corners. *)
Lemma getLayerColor_returns (l : list (array3 string)) (c : string) :
  1 <= length l <= 4 -> exists t, getLayerColor l c = Returns t.
Proof.
  intros [Hlo Hhi].
  destruct l as [|c0 [|c1 [|c2 [|c3 [|c4 l]]]]]; simpl in Hlo, Hhi;
    try lia; eexists; reflexivity.
Qed.

Lemma getLayerColor_panics (l : list (array3 string)) (c : string) :
  length l = 0 \/ 4 < length l -> getLayerColor l c = Panics indexOutOfRange.
Proof.
  intros H.
  destruct l as [|c0 [|c1 [|c2 [|c3 [|c4 l]]]]]; simpl in H;
    try lia; reflexivity.
Qed.

(** Which corners are picked depends on the receiver only, and the two
    slices grow together. *)
Lemma appendLayerCorner_step (get : Skewb -> array3 string) (s other : Skewb)
    (c : string) (acc acc' : list (array3 string) * list (array3 string)) :
  fst acc = fst acc' /\ length (snd acc) = length (fst acc) ->
  fst (appendLayerCorner get s other c acc)
  = fst (appendLayerCorner get s s c acc')
  /\ length (snd (appendLayerCorner get s other c acc))
     = length (fst (appendLayerCorner get s other c acc)).
Proof.
  intros [E L]. unfold appendLayerCorner.
  destruct (negb (Z.eqb (index (get s) c) (-1))); simpl.
  - rewrite E, !length_app, L, E. auto.
  - auto.
Qed.

Lemma layerCorners_lengths (s other : Skewb) (c : string) :
  length (fst (layerCorners s other c)) = layerCount s c
  /\ length (snd (layerCorners s other c)) = layerCount s c.
Proof.
  unfold layerCount, layerCorners. cbv zeta.
  assert (H0 : fst (@nil (array3 string), @nil (array3 string))
               = fst (@nil (array3 string), @nil (array3 string))
               /\ length (snd (@nil (array3 string), @nil (array3 string)))
                  = length (fst (@nil (array3 string), @nil (array3 string))))
    by (split; reflexivity).
  repeat match goal with
    | H : fst ?a = fst ?a' /\ _ |- context [appendLayerCorner ?g s other c ?a] =>
        let H' := fresh "H" in
        pose proof (appendLayerCorner_step g s other c a a' H) as H'; clear H
    end.
  match goal with
  | H : fst _ = fst _ /\ _ |- _ => destruct H as [E L]
  end.
  rewrite L, E. auto.
Qed.

Lemma oneLayerMirror_returns (s other : Skewb) (c : string) :
  1 <= layerCount s c <= 4 -> exists r, oneLayerMirror s other c = Returns r.
Proof.
  intro H. unfold oneLayerMirror.
  destruct (layerCorners_lengths s other c) as [Ls Lo].
  destruct (layerCorners s other c) as [ls lo]; simpl in Ls, Lo.
  destruct (getLayerColor_returns ls c) as [ts ->]; [lia|].
  destruct (getLayerColor_returns lo c) as [to ->]; [lia|].
  destruct (table_eqb ts to); eexists; reflexivity.
Qed.

Lemma oneLayerMirror_aborts (s other : Skewb) (c : string) :
  layerCount s c = 0 \/ 4 < layerCount s c ->
  oneLayerMirror s other c = Panics indexOutOfRange.
Proof.
  intro H. unfold oneLayerMirror.
  destruct (layerCorners_lengths s other c) as [Ls Lo].
  destruct (layerCorners s other c) as [ls lo]; simpl in Ls, Lo.
  now rewrite (getLayerColor_panics ls c) by lia.
Qed.

(** ** The corner count is a property of the puzzle, not of how it is held *)

Lemma appendLayerCorner_count (get : Skewb -> array3 string) (s : Skewb)
    (c : string) (acc : list (array3 string) * list (array3 string)) :
  length (fst (appendLayerCorner get s s c acc))
  = length (fst acc) + Nat.b2n (negb (Z.eqb (index (get s) c) (-1))).
Proof.
  unfold appendLayerCorner.
  destruct (negb (Z.eqb (index (get s) c) (-1))); simpl.
  - now rewrite length_app.
  - lia.
Qed.

Lemma layerCount_sum (s : Skewb) (c : string) :
  layerCount s c
  = Nat.b2n (onCorner c (ufr s)) + Nat.b2n (onCorner c (urb s))
    + Nat.b2n (onCorner c (ulf s)) + Nat.b2n (onCorner c (ubl s))
    + Nat.b2n (onCorner c (drf s)) + Nat.b2n (onCorner c (dbr s))
    + Nat.b2n (onCorner c (dfl s)) + Nat.b2n (onCorner c (dlb s)).
Proof.
  unfold layerCount, layerCorners. cbv zeta.
  rewrite !appendLayerCorner_count. reflexivity.
Qed.

Lemma onCorner_shift (c x y z : string) :
  onCorner c (mkCorner (mkCornerColors y z x))
  = onCorner c (mkCorner (mkCornerColors x y z)).
Proof.
  unfold onCorner, index, cornerColors; simpl.
  destruct (String.eqb x c), (String.eqb y c), (String.eqb z c); reflexivity.
Qed.

Lemma onCorner_unshift (c x y z : string) :
  onCorner c (mkCorner (mkCornerColors z x y))
  = onCorner c (mkCorner (mkCornerColors x y z)).
Proof.
  unfold onCorner, index, cornerColors; simpl.
  destruct (String.eqb x c), (String.eqb y c), (String.eqb z c); reflexivity.
Qed.

Lemma layerCount_rotation (s : Skewb) (r c : string) :
  In r CenterDown_rotations -> layerCount (after s r) c = layerCount s c.
Proof.
  intro H. expose s. rewrite !layerCount_sum.
  each_member H ltac:(
    remember (after _ _) as t eqn:E; vm_compute in E; subst t;
    cbn [ufr urb ulf ubl drf dbr dfl dlb];
    repeat match goal with
      | |- context [onCorner c (mkCorner (mkCornerColors ?x ?y ?z))] =>
          rewrite ?(onCorner_shift c x y z), ?(onCorner_unshift c x y z);
          generalize (onCorner c (mkCorner (mkCornerColors x y z))); intro
      end;
    lia).
Qed.

Lemma CenterDown_choice (s : Skewb) (c : string) :
  fst (CenterDown s c) = s
  \/ exists r, In r CenterDown_rotations /\ fst (CenterDown s c) = after s r.
Proof.
  destruct (in_dec string_dec c (centerColors s)) as [Hin|Hout].
  - exact (proj2 (proj2 (CenterDown_present s c Hin))).
  - left. now rewrite (CenterDown_absent s c Hout).
Qed.

Lemma layerCount_CenterDown (s : Skewb) (c layerColor : string) :
  layerCount (fst (CenterDown s c)) layerColor = layerCount s layerColor.
Proof.
  destruct (CenterDown_choice s c) as [-> | [r [Hr ->]]];
    [reflexivity | now apply layerCount_rotation].
Qed.

(** ** C5 and C7: the search of [OneLayerMirror] *)

Lemma OneLayerMirrorLoop_spec (rotations : list string) (s other : Skewb)
    (c : string) :
  Forall restoring rotations ->
  1 <= layerCount s c <= 4 ->
  OneLayerMirrorLoop rotations s other c
  = Returns (other,
             existsb (fun r => answer (oneLayerMirror s (after other r) c))
                     rotations).
Proof.
  intros H Hc. induction rotations as [|r rs IH]; simpl; [reflexivity|].
  inversion H as [|? ? Hr Hrs]; subst.
  change (fst (ApplyWCAMoves other r)) with (after other r).
  destruct (oneLayerMirror_returns s (after other r) c Hc) as [v ->].
  rewrite (Hr other). destruct v; simpl; [reflexivity | now apply IH].
Qed.

(** C5, as the code has it.  When [layerColor] is on one to four corners
    of [a], [OneLayerMirror] returns.  It first calls [CenterDown] on [a]
    with [layerColor] and then on [b] with the down colour [a] has by then,
    and looks at neither error: [a] gets [layerColor] down when one of its
    centers holds it and is untouched otherwise; [b] gets the same down
    colour as [a] when one of its centers holds that colour and is
    untouched otherwise.  From there on [a] does not change, and [b] is
    handed back as [CenterDown] left it whatever the answer: every trial
    rotation y, y', y2 is undone by its reverse, after a match as well as
    after a mismatch.  Every comparison involved returns, and the answer is
    true exactly when the patterns agree directly or after one of the
    three rotations. *)
Theorem OneLayerMirror_spec (a b : Skewb) (layerColor : string) :
  1 <= layerCount a layerColor <= 4 ->
  (forall other, exists v,
      oneLayerMirror (receiverDown a layerColor) other layerColor = Returns v)
  /\ OneLayerMirror a b layerColor
     = Returns
         (receiverDown a layerColor, otherDown a b layerColor,
          answer (oneLayerMirror (receiverDown a layerColor)
                    (otherDown a b layerColor) layerColor)
          || existsb
               (fun r => answer (oneLayerMirror (receiverDown a layerColor)
                                   (after (otherDown a b layerColor) r)
                                   layerColor))
               OneLayerMirror_rotations)
  /\ (In layerColor (centerColors a) ->
      color (down (receiverDown a layerColor)) = layerColor)
  /\ (~ In layerColor (centerColors a) -> receiverDown a layerColor = a)
  /\ (In (color (down (receiverDown a layerColor))) (centerColors b) ->
      color (down (otherDown a b layerColor))
      = color (down (receiverDown a layerColor)))
  /\ (~ In (color (down (receiverDown a layerColor))) (centerColors b) ->
      otherDown a b layerColor = b
      /\ color (down (otherDown a b layerColor))
         <> color (down (receiverDown a layerColor))).
Proof.
  intro H.
  assert (Hc : 1 <= layerCount (receiverDown a layerColor) layerColor <= 4)
    by (unfold receiverDown; now rewrite layerCount_CenterDown).
  split; [intro other; now apply oneLayerMirror_returns|].
  split.
  - unfold OneLayerMirror.
    fold (receiverDown a layerColor). fold (otherDown a b layerColor).
    destruct (oneLayerMirror_returns (receiverDown a layerColor)
                (otherDown a b layerColor) layerColor Hc) as [v ->].
    destruct v; cbn [answer orb]; [reflexivity|].
    now rewrite (OneLayerMirrorLoop_spec _ _ _ _
                   OneLayerMirror_rotations_restoring Hc).
  - unfold otherDown, receiverDown. split; [|split; [|split]].
    + intro Hin. exact (proj1 (proj2 (CenterDown_present a layerColor Hin))).
    + intro Hout. now rewrite (CenterDown_absent a layerColor Hout).
    + intro Hin. exact (proj1 (proj2 (CenterDown_present b _ Hin))).
    + intro Hout. rewrite (CenterDown_absent b _ Hout). cbn [fst].
      split; [reflexivity|].
      intro E. apply Hout. rewrite <- E. unfold centerColors. simpl. tauto.
Qed.

Lemma OneLayerMirror_spec_witness :
  1 <= layerCount (after solved "U") "yellow" <= 4
  /\ In "yellow" (centerColors (after solved "U"))
  /\ In (color (down (receiverDown (after solved "U") "yellow")))
        (centerColors (after solved "R U y'"))
  /\ 1 <= layerCount (storeColor p_down "pink" solved) "yellow" <= 4
  /\ ~ In "yellow" (centerColors (storeColor p_down "pink" solved))
  /\ ~ In (color (down (receiverDown (storeColor p_down "pink" solved) "yellow")))
          (centerColors solved)
  /\ OneLayerMirror (after solved "U") (after solved "R U y'") "yellow"
     = Returns
         (receiverDown (after solved "U") "yellow",
          otherDown (after solved "U") (after solved "R U y'") "yellow",
          answer (oneLayerMirror (receiverDown (after solved "U") "yellow")
                    (otherDown (after solved "U") (after solved "R U y'") "yellow")
                    "yellow")
          || existsb
               (fun r => answer (oneLayerMirror
                                   (receiverDown (after solved "U") "yellow")
                                   (after (otherDown (after solved "U")
                                             (after solved "R U y'") "yellow") r)
                                   "yellow"))
               OneLayerMirror_rotations)
  /\ color (down (receiverDown (after solved "U") "yellow")) = "yellow"
  /\ color (down (otherDown (after solved "U") (after solved "R U y'") "yellow"))
     = color (down (receiverDown (after solved "U") "yellow"))
  /\ receiverDown (storeColor p_down "pink" solved) "yellow"
     = storeColor p_down "pink" solved
  /\ otherDown (storeColor p_down "pink" solved) solved "yellow" = solved
  /\ color (down (otherDown (storeColor p_down "pink" solved) solved "yellow"))
     <> color (down (receiverDown (storeColor p_down "pink" solved) "yellow")).
Proof.
  assert (Hc : 1 <= layerCount (after solved "U") "yellow" <= 4)
    by (vm_compute; lia).
  assert (Ha : In "yellow" (centerColors (after solved "U")))
    by (vm_compute; tauto).
  assert (Hb : In (color (down (receiverDown (after solved "U") "yellow")))
                 (centerColors (after solved "R U y'")))
    by (vm_compute; tauto).
  assert (Hc' : 1 <= layerCount (storeColor p_down "pink" solved) "yellow" <= 4)
    by (vm_compute; lia).
  assert (Ha' : ~ In "yellow" (centerColors (storeColor p_down "pink" solved))).
  { intro H. vm_compute in H.
    repeat (destruct H as [H | H]; [discriminate H|]). exact H. }
  assert (Hb' : ~ In (color (down (receiverDown
                                     (storeColor p_down "pink" solved) "yellow")))
                  (centerColors solved)).
  { intro H. vm_compute in H.
    repeat (destruct H as [H | H]; [discriminate H|]). exact H. }
  pose proof (OneLayerMirror_spec (after solved "U") (after solved "R U y'")
                "yellow" Hc) as [_ [E [D1 [_ [D2 _]]]]].
  pose proof (OneLayerMirror_spec (storeColor p_down "pink" solved) solved
                "yellow" Hc') as [_ [_ [_ [N1 [_ N2]]]]].
  split; [exact Hc | split; [exact Ha | split; [exact Hb|]]].
  split; [exact Hc' | split; [exact Ha' | split; [exact Hb'|]]].
  split; [exact E|].
  split; [exact (D1 Ha)|].
  split; [exact (D2 Hb)|].
  split; [exact (N1 Ha') | exact (N2 Hb')].
Defined.

(** The two down faces need not agree afterwards: with [a] the solved
    puzzle after the little-letter moves F r' b x and the colour red, [a]
    has red down, and [lettered], which has no red center, keeps its own
    down colour. *)
Example OneLayerMirror_down_faces_may_differ :
  1 <= layerCount (fst (ApplyRubiskewbMoves solved "F r' b x")) "red" <= 4
  /\ color (down (receiverDown (fst (ApplyRubiskewbMoves solved "F r' b x")) "red"))
     = "red"
  /\ otherDown (fst (ApplyRubiskewbMoves solved "F r' b x")) lettered "red"
     = lettered
  /\ color (down lettered) = "f".
Proof.
  split; [vm_compute; lia|].
  split; [vm_compute; reflexivity|].
  split; vm_compute; reflexivity.
Qed.

(** C5 as stated fails.  With [a] the solved puzzle after ["U"] and [b]
    the same after ["U y'"], both already have yellow down; the direct
    comparison fails and the first trial rotation ["y"] succeeds, yet on
    return [b] is what it was before the trial: the rotation is undone,
    not left applied. *)
Lemma OneLayerMirror_undoes_successful_rotation :
  oneLayerMirror (after solved "U") (after solved "U y'") "yellow"
  = Returns false
  /\ oneLayerMirror (after solved "U") (after (after solved "U y'") "y") "yellow"
     = Returns true
  /\ OneLayerMirror (after solved "U") (after solved "U y'") "yellow"
     = Returns (after solved "U", after solved "U y'", true)
  /\ ExactEqual (after (after solved "U y'") "y") (after solved "U y'") = false.
Proof.
  split; [vm_compute; reflexivity|].
  split; [vm_compute; reflexivity|].
  split; vm_compute; reflexivity.
Qed.

(** C7 at the inputs that break it.  When [layerColor] is on no corner of
    [a], or on more than four, [OneLayerMirror] does not return: the
    pattern computation [getLayerColor] indexes [layerCorners[0]] of an
    empty slice, or row 4 of its four-row table, and the run time aborts
    the program. *)
Theorem OneLayerMirror_panics (a b : Skewb) (layerColor : string) :
  layerCount a layerColor = 0 \/ 4 < layerCount a layerColor ->
  getLayerColor [] layerColor = Panics indexOutOfRange
  /\ OneLayerMirror a b layerColor = Panics indexOutOfRange.
Proof.
  intro H. split; [reflexivity|].
  unfold OneLayerMirror.
  rewrite oneLayerMirror_aborts; [reflexivity|].
  now rewrite layerCount_CenterDown.
Qed.

Lemma OneLayerMirror_panics_witness :
  (layerCount solved "purple" = 0 \/ 4 < layerCount solved "purple")
  /\ getLayerColor [] "purple" = Panics indexOutOfRange
  /\ OneLayerMirror solved solved "purple" = Panics indexOutOfRange.
Proof.
  assert (H : layerCount solved "purple" = 0 \/ 4 < layerCount solved "purple")
    by (left; vm_compute; reflexivity).
  split; [exact H | exact (OneLayerMirror_panics solved solved "purple" H)].
Defined.

(** The other way to abort: a colour on more than four corners. *)
Example repeated_colour_aborts :
  layerCount (New "a" "a" "a" "a" "a" "a") "a" = 8
  /\ OneLayerMirror (New "a" "a" "a" "a" "a" "a") solved "a"
     = Panics indexOutOfRange.
Proof. split; vm_compute; reflexivity. Qed.

(** * Further properties of the code *)

(** ** How the token loop treats a sequence *)

Lemma Split_append_sep (sep : ascii) (a b : string) :
  Split (a ++ String sep b) sep = Split a sep ++ Split b sep.
Proof.
  induction a as [|c a IH]; simpl.
  - now rewrite Ascii.eqb_refl.
  - destruct (Ascii.eqb c sep); [now rewrite IH|].
    rewrite IH. destruct (Split a sep) as [|t ts] eqn:E;
      [now apply Split_not_nil in E | reflexivity].
Qed.

Lemma Split_single (sep : ascii) (t : string) :
  Contains t sep = false -> Split t sep = [t].
Proof.
  induction t as [|a t IH]; simpl; intro H; [reflexivity|].
  destruct (Ascii.eqb a sep); [discriminate|]. now rewrite (IH H).
Qed.

Lemma applyTokens_app (body : Skewb -> string -> Skewb * option error)
    (a b : list string) (s : Skewb) :
  applyTokens body (a ++ b) s
  = match applyTokens body a s with
    | (s', None) => applyTokens body b s'
    | (s', Some e) => (s', Some e)
    end.
Proof.
  revert s. induction a as [|t ts IH]; intro s; simpl; [reflexivity|].
  destruct (body s t) as [s' [e|]]; [reflexivity | apply IH].
Qed.

Lemma applyTokens_nil_iff (n : notation) (tokens : list string) (s : Skewb) :
  snd (applyTokens (tokenBody n) tokens s) = None
  <-> Forall (fun t => In t (vocabulary n)) tokens.
Proof.
  revert s. induction tokens as [|t ts IH]; intro s; simpl.
  - split; [constructor | reflexivity].
  - destruct (in_dec string_dec t (vocabulary n)) as [Hin|Hout].
    + pose proof (token_accepted n t Hin s) as A.
      destruct (tokenBody n s t) as [s' [e|]]; simpl in A; [discriminate|].
      rewrite IH. split; [now constructor | now inversion 1].
    + rewrite (token_rejected n t Hout s). simpl.
      split; [discriminate | inversion 1; contradiction].
Qed.

(** X1.  In either notation a call succeeds exactly on the sequences whose
    tokens, as [strings.Split] cuts them at single spaces, all belong to
    the vocabulary.  The empty string, a leading or trailing space and a
    doubled space each produce an empty token and therefore an error. *)
Theorem apply_succeeds_iff_valid (n : notation) (s : Skewb) (m : string) :
  (snd (ApplyMoves n s m) = None <-> validSequence n m)
  /\ ApplyMoves n s EmptyString = (s, Some (Sprintf_v_v EmptyString ErrWCAMove))
  /\ (forall t, In t (vocabulary n) ->
        snd (ApplyMoves n s (t ++ " ")) <> None
        /\ snd (ApplyMoves n s (" " ++ t)) <> None
        /\ snd (ApplyMoves n s (t ++ "  " ++ t)) <> None).
Proof.
  split; [|split].
  - rewrite ApplyMoves_unfold. apply applyTokens_nil_iff.
  - rewrite ApplyMoves_unfold. simpl. now rewrite empty_token_rejected.
  - intros t Ht.
    assert (E : ~ In EmptyString (vocabulary n))
      by (destruct n; simpl; intuition discriminate).
    rewrite !ApplyMoves_unfold, !applyTokens_nil_iff.
    change (t ++ " ")%string with (t ++ String space EmptyString)%string.
    change (" " ++ t)%string with (EmptyString ++ String space t)%string.
    change (t ++ "  " ++ t)%string
      with (t ++ String space (EmptyString ++ String space t))%string.
    rewrite !Split_append_sep. simpl.
    repeat split; intro F; rewrite Forall_forall in F; apply E, F;
      rewrite ?in_app_iff; simpl; tauto.
Qed.

(** X2.  Apply-until-first-error, in general: when [p] is a valid sequence
    and [bad] is a token without a space that is not in the vocabulary,
    applying [p bad] or [p bad rest] returns the error for [bad] and the
    state that [p] alone produces, whatever [rest] is. *)
Theorem apply_stops_at_first_unknown (n : notation) (s : Skewb)
    (p bad rest : string) :
  validSequence n p ->
  Contains bad space = false ->
  ~ In bad (vocabulary n) ->
  ApplyMoves n s (p ++ " " ++ bad)
  = (fst (ApplyMoves n s p), Some (Sprintf_v_v bad ErrWCAMove))
  /\ ApplyMoves n s (p ++ " " ++ bad ++ " " ++ rest)
     = (fst (ApplyMoves n s p), Some (Sprintf_v_v bad ErrWCAMove)).
Proof.
  intros Hp Hfree Hbad.
  assert (A := ApplyMoves_valid n s p Hp).
  rewrite !ApplyMoves_unfold in *.
  change (p ++ " " ++ bad)%string with (p ++ String space bad)%string.
  change (p ++ " " ++ bad ++ " " ++ rest)%string
    with (p ++ String space (bad ++ String space rest))%string.
  rewrite !Split_append_sep, (Split_single space bad Hfree).
  rewrite !applyTokens_app, A. simpl.
  now rewrite (token_rejected n bad Hbad).
Qed.

Lemma apply_stops_at_first_unknown_witness :
  validSequence Rubiskewb "f r'"
  /\ Contains "U" space = false
  /\ ~ In "U" (vocabulary Rubiskewb)
  /\ ApplyMoves Rubiskewb solved ("f r'" ++ " " ++ "U")
     = (fst (ApplyMoves Rubiskewb solved "f r'"),
        Some (Sprintf_v_v "U" ErrWCAMove))
  /\ ApplyMoves Rubiskewb solved ("f r'" ++ " " ++ "U" ++ " " ++ "F")
     = (fst (ApplyMoves Rubiskewb solved "f r'"),
        Some (Sprintf_v_v "U" ErrWCAMove)).
Proof.
  assert (V : validSequence Rubiskewb "f r'") by valid_sequence.
  assert (N : ~ In "U" (vocabulary Rubiskewb)).
  { intro H. vm_compute in H.
    repeat (destruct H as [H | H]; [discriminate H|]). exact H. }
  split; [exact V | split; [reflexivity | split; [exact N|]]].
  exact (apply_stops_at_first_unknown Rubiskewb solved "f r'" "U" "F"
           V eq_refl N).
Defined.

(** X3.  Sequences compose through the separator: applying [m1 m2] is
    applying [m1] and then, if that succeeded, [m2] to the state reached;
    if [m1] fails, [m1 m2] fails with the same error and the same state. *)
Theorem apply_concatenation (n : notation) (s : Skewb) (m1 m2 : string) :
  ApplyMoves n s (m1 ++ " " ++ m2)
  = match ApplyMoves n s m1 with
    | (s1, None) => ApplyMoves n s1 m2
    | (s1, Some e) => (s1, Some e)
    end.
Proof.
  rewrite !ApplyMoves_unfold.
  change (m1 ++ " " ++ m2)%string with (m1 ++ String space m2)%string.
  rewrite Split_append_sep, applyTokens_app.
  destruct (applyTokens (tokenBody n) (Split m1 space) s) as [s1 [e|]];
    [reflexivity | now rewrite ApplyMoves_unfold].
Qed.

Lemma apply_succeeds_iff_valid_witness :
  In "R" (vocabulary WCA)
  /\ snd (ApplyMoves WCA solved ("R" ++ " ")) <> None
  /\ snd (ApplyMoves WCA solved (" " ++ "R")) <> None
  /\ snd (ApplyMoves WCA solved ("R" ++ "  " ++ "R")) <> None.
Proof.
  assert (H : In "R" (vocabulary WCA)) by (simpl; tauto).
  split; [exact H|].
  exact (proj2 (proj2 (apply_succeeds_iff_valid WCA solved EmptyString)) "R" H).
Defined.

(** ** The algebra of the moves *)

(** X4.  A face turn has order three: in either notation, applying a face
    turn three times succeeds and gives back the identical state, and
    applying it twice is applying its reverse once. *)
Theorem face_turn_order_three (n : notation) (t : Move) (s : Skewb) :
  In t (faceTurns n) ->
  ApplyMoves n s (t ++ " " ++ t ++ " " ++ t) = (s, None)
  /\ ApplyMoves n s (t ++ " " ++ t) = ApplyMoves n s (reverseMove t).
Proof.
  intro H. expose s.
  destruct n; each_member H ltac:(split; vm_compute; reflexivity).
Qed.

Lemma face_turn_order_three_witness :
  In "f'" (faceTurns Rubiskewb)
  /\ ApplyMoves Rubiskewb (after solved "U x") ("f'" ++ " " ++ "f'" ++ " " ++ "f'")
     = (after solved "U x", None)
  /\ ApplyMoves Rubiskewb (after solved "U x") ("f'" ++ " " ++ "f'")
     = ApplyMoves Rubiskewb (after solved "U x") (reverseMove "f'").
Proof.
  assert (H : In "f'" (faceTurns Rubiskewb)) by (simpl; tauto).
  split; [exact H|].
  exact (face_turn_order_three Rubiskewb "f'" (after solved "U x") H).
Defined.

Lemma Split_Join (tokens : list string) :
  tokens <> [] ->
  Forall (fun t => Contains t space = false) tokens ->
  Split (Join tokens) space = tokens.
Proof.
  induction tokens as [|t ts IH]; intros Hne H; [contradiction|].
  inversion H as [|? ? Ht Hts]; subst.
  destruct ts as [|u us].
  - simpl. now apply Split_single.
  - change (Join (t :: u :: us)) with (t ++ String space (Join (u :: us)))%string.
    rewrite Split_piece_then_sep by assumption.
    rewrite IH; [reflexivity | discriminate | assumption].
Qed.

Lemma toRubiskewb_same_move (t : Move) (s : Skewb) :
  In t (vocabulary WCA) ->
  rubiskewbToken s (toRubiskewb t) = wcaToken s t
  /\ Contains (toRubiskewb t) space = false.
Proof.
  intro H. each_member H ltac:(split; reflexivity).
Qed.

(** X5.  The two notations name the same turns: the WCA moves U, R, B, L
    are the little-letter moves B, r, b, l, and the axis rotations are
    shared.  A valid WCA sequence, rewritten token by token, has under
    [ApplyRubiskewbMoves] the very effect it has under [ApplyWCAMoves]. *)
Theorem notations_agree (s : Skewb) (m : string) :
  validSequence WCA m ->
  ApplyRubiskewbMoves s (translate m) = ApplyWCAMoves s m.
Proof.
  intro H. unfold ApplyRubiskewbMoves, ApplyWCAMoves, translate.
  unfold validSequence in H.
  rewrite Split_Join.
  - revert s. induction (Split m space) as [|t ts IH]; intro s; [reflexivity|].
    inversion H as [|? ? Ht Hts]; subst. simpl.
    rewrite (proj1 (toRubiskewb_same_move t s Ht)).
    destruct (wcaToken s t) as [s' [e|]]; [reflexivity | now apply IH].
  - intro E. apply map_eq_nil in E. now apply Split_not_nil in E.
  - apply Forall_map. eapply Forall_impl; [|exact H].
    intros t Ht. exact (proj2 (toRubiskewb_same_move t s Ht)).
Qed.

Lemma notations_agree_witness :
  validSequence WCA "U R' x2 B L'"
  /\ translate "U R' x2 B L'" = "B r' x2 b l'"
  /\ ApplyRubiskewbMoves solved (translate "U R' x2 B L'")
     = ApplyWCAMoves solved "U R' x2 B L'".
Proof.
  assert (V : validSequence WCA "U R' x2 B L'") by valid_sequence.
  split; [exact V | split; [reflexivity|]].
  exact (notations_agree solved "U R' x2 B L'" V).
Defined.

Lemma recolor_token (n : notation) (f : string -> string) (t : string)
    (s : Skewb) :
  tokenBody n (recolor f s) t
  = (recolor f (fst (tokenBody n s t)), snd (tokenBody n s t)).
Proof.
  destruct (in_dec string_dec t (vocabulary n)) as [H|H].
  - expose s. destruct n; each_member H ltac:(vm_compute; reflexivity).
  - now rewrite !(token_rejected n t H).
Qed.

Lemma ApplyMoves_recolor (n : notation) (f : string -> string)
    (s : Skewb) (m : string) :
  ApplyMoves n (recolor f s) m
  = (recolor f (fst (ApplyMoves n s m)), snd (ApplyMoves n s m)).
Proof.
  rewrite !ApplyMoves_unfold. revert s.
  induction (Split m space) as [|t ts IH]; intro s; simpl; [reflexivity|].
  rewrite recolor_token.
  destruct (tokenBody n s t) as [s' [e|]]; simpl; [reflexivity | apply IH].
Qed.

(** X6.  The moves never look at a colour.  For any renaming [f] of the
    colours and any sequence, valid or not, applying the sequence to the
    renamed state gives the renamed result and the same error. *)
Theorem moves_ignore_colours (n : notation) (f : string -> string)
    (s : Skewb) (m : string) :
  ApplyMoves n (recolor f s) m
  = (recolor f (fst (ApplyMoves n s m)), snd (ApplyMoves n s m)).
Proof. apply ApplyMoves_recolor. Qed.

(** ** What every move keeps *)

(** Whatever one iteration of the loop keeps, a whole call keeps. *)
Lemma applyTokens_invariant (body : Skewb -> string -> Skewb * option error)
    (P : Skewb -> Prop) :
  (forall s t, P s -> P (fst (body s t))) ->
  forall tokens s, P s -> P (fst (applyTokens body tokens s)).
Proof.
  intros Hb tokens. induction tokens as [|t ts IH]; intros s Hs; simpl;
    [assumption|].
  specialize (Hb s t Hs). destruct (body s t) as [s' [e|]]; simpl in *;
    [assumption | now apply IH].
Qed.

(** Close a goal [Permutation l r] between two literal lists. *)
Ltac permute :=
  match goal with
  | |- Permutation [] [] => constructor
  | |- Permutation (?a :: ?l) ?r =>
      let rec cut pre post :=
        match post with
        | a :: ?post' =>
            apply (Permutation_cons_app pre post' a); simpl; permute
        | ?b :: ?post' => cut (pre ++ [b]) post'
        end in
      cut (@nil string) r
  end.

Lemma token_permutes_centers (n : notation) (s : Skewb) (t : string) :
  Permutation (centerColors (fst (tokenBody n s t))) (centerColors s).
Proof.
  destruct (in_dec string_dec t (vocabulary n)) as [H|H].
  - expose s.
    destruct n; each_member H ltac:(
      remember (fst (tokenBody _ _ _)) as r eqn:E; vm_compute in E; subst r;
      unfold centerColors; cbn [color up front right back left down];
      permute).
  - now rewrite (token_rejected n t H).
Qed.

Lemma token_keeps_layerCount (n : notation) (s : Skewb) (t c : string) :
  layerCount (fst (tokenBody n s t)) c = layerCount s c.
Proof.
  destruct (in_dec string_dec t (vocabulary n)) as [H|H].
  - expose s. rewrite !layerCount_sum.
    destruct n; each_member H ltac:(
      remember (fst (tokenBody _ _ _)) as r eqn:E; vm_compute in E; subst r;
      cbn [ufr urb ulf ubl drf dbr dfl dlb];
      repeat match goal with
        | |- context [onCorner c (mkCorner (mkCornerColors ?x ?y ?z))] =>
            rewrite ?(onCorner_shift c x y z), ?(onCorner_unshift c x y z);
            generalize (onCorner c (mkCorner (mkCornerColors x y z))); intro
        end;
      lia).
  - now rewrite (token_rejected n t H).
Qed.

Lemma ApplyMoves_permutes_centers (n : notation) (s : Skewb) (m : string) :
  Permutation (centerColors (fst (ApplyMoves n s m))) (centerColors s).
Proof.
  rewrite ApplyMoves_unfold.
  apply (applyTokens_invariant (tokenBody n)
           (fun s' => Permutation (centerColors s') (centerColors s)));
    [|reflexivity].
  intros s' t Hs'. etransitivity; [apply token_permutes_centers | exact Hs'].
Qed.

Lemma ApplyMoves_keeps_layerCount (n : notation) (s : Skewb) (m c : string) :
  layerCount (fst (ApplyMoves n s m)) c = layerCount s c.
Proof.
  rewrite ApplyMoves_unfold.
  apply (applyTokens_invariant (tokenBody n)
           (fun s' => layerCount s' c = layerCount s c)); [|reflexivity].
  intros s' t Hs'. now rewrite token_keeps_layerCount.
Qed.

(** X7.  No call, successful or not, creates or loses a sticker: after
    [ApplyWCAMoves] or [ApplyRubiskewbMoves] on any string the six center
    colours are a permutation of what they were, and every colour is on as
    many corners as before. *)
Theorem moves_keep_the_colours (n : notation) (s : Skewb) (m c : string) :
  Permutation (centerColors (fst (ApplyMoves n s m))) (centerColors s)
  /\ layerCount (fst (ApplyMoves n s m)) c = layerCount s c.
Proof.
  split; [apply ApplyMoves_permutes_centers | apply ApplyMoves_keeps_layerCount].
Qed.

(** X8.  The WCA face turns hold the up-front-right corner fixed: a
    sequence of U, U', R, R', B, B', L, L' leaves that corner, and every
    colour on it, exactly where it was. *)
Theorem wca_face_turns_fix_ufr (s : Skewb) (m : string) :
  Forall (fun t => In t (faceTurns WCA)) (Split m space) ->
  snd (ApplyWCAMoves s m) = None
  /\ ufr (fst (ApplyWCAMoves s m)) = ufr s.
Proof.
  intro H. split.
  - apply (proj2 (applyTokens_nil_iff WCA (Split m space) s)).
    eapply Forall_impl; [|exact H]. intros t Ht. simpl in *. tauto.
  - unfold ApplyWCAMoves. revert s.
    induction (Split m space) as [|t ts IH]; intro s; [reflexivity|].
    inversion H as [|? ? Ht Hts]; subst. simpl.
    assert (E : snd (wcaToken s t) = None /\ ufr (fst (wcaToken s t)) = ufr s).
    { expose s. each_member Ht ltac:(split; reflexivity). }
    destruct (wcaToken s t) as [s' [e|]]; simpl in E; destruct E as [E1 E2];
      [discriminate|].
    rewrite (IH Hts s'). exact E2.
Qed.

Lemma wca_face_turns_fix_ufr_witness :
  Forall (fun t => In t (faceTurns WCA)) (Split "U R' B L L U'" space)
  /\ snd (ApplyWCAMoves solved "U R' B L L U'") = None
  /\ ufr (fst (ApplyWCAMoves solved "U R' B L L U'")) = ufr solved.
Proof.
  assert (H : Forall (fun t => In t (faceTurns WCA))
                (Split "U R' B L L U'" space))
    by (apply Forall_forall; intros t Ht; apply oneOf_In;
        revert t Ht; apply forallb_forall; vm_compute; reflexivity).
  split; [exact H | exact (wca_face_turns_fix_ufr solved "U R' B L L U'" H)].
Defined.

(** ** Exact and spin-invariant equality *)

(** X9.  [ExactEqual] decides identity of states: it answers true exactly
    when all 24 corner stickers and all 6 centers coincide, so it is
    reflexive and gives the same answer with its arguments exchanged. *)
Theorem ExactEqual_decides_identity (a b : Skewb) :
  (ExactEqual a b = true <-> a = b)
  /\ ExactEqual a a = true
  /\ ExactEqual a b = ExactEqual b a.
Proof.
  split; [apply equal_true_iff | split; [apply equal_refl|]].
  unfold ExactEqual.
  destruct (equal a b) eqn:E1, (equal b a) eqn:E2; try reflexivity.
  - apply equal_true_iff in E1. subst. now rewrite equal_refl in E2.
  - apply equal_true_iff in E2. subst. now rewrite equal_refl in E1.
Qed.

(** The answer of [Equal] and the state it leaves, test by test. *)
Lemma Equal_cases (a b : Skewb) :
  let b0 := fst (CenterDown b (color (down a))) in
  Equal a b
  = if equal a b0 then (b0, true)
    else if equal a (after b0 "y") then (after b0 "y", true)
    else if equal a (after (after b0 "y") "y") then (after (after b0 "y") "y", true)
    else if equal a (after (after (after b0 "y") "y") "y")
         then (after (after (after b0 "y") "y") "y", true)
    else (after (after (after b0 "y") "y") "y", false).
Proof. reflexivity. Qed.

Lemma two_quarter_turns (s : Skewb) : after (after s "y") "y" = after s "y y".
Proof. expose s. reflexivity. Qed.

Lemma Equal_true_gives_receiver (a b : Skewb) :
  snd (Equal a b) = true -> fst (Equal a b) = a.
Proof.
  rewrite Equal_cases. cbv zeta.
  repeat match goal with
    | |- context [if equal a ?x then _ else _] =>
        let E := fresh "E" in
        destruct (equal a x) eqn:E;
        [apply equal_true_iff in E; intros _; now rewrite <- E|]
    end.
  discriminate.
Qed.

(** X10.  [Equal] answers true exactly when [a] is one of the four spins
    of [b] as [CenterDown] left it.  When the answer is true, [b] has been
    turned into a state identical to [a]; when it is false, [b] is left
    three quarter turns away from where [CenterDown] put it. *)
Theorem Equal_searches_four_spins (a b : Skewb) :
  snd (Equal a b)
  = existsb (equal a) (spins (fst (CenterDown b (color (down a)))))
  /\ (snd (Equal a b) = true -> fst (Equal a b) = a)
  /\ (snd (Equal a b) = false ->
      fst (Equal a b) = after (fst (CenterDown b (color (down a)))) "y y y").
Proof.
  split; [|split; [apply Equal_true_gives_receiver|]].
  - rewrite Equal_cases. cbv zeta. unfold spins, existsb.
    rewrite <- three_quarter_turns, <- two_quarter_turns.
    repeat match goal with
      | |- context [if equal a ?x then _ else _] => destruct (equal a x)
      end; reflexivity.
  - rewrite Equal_cases. cbv zeta. rewrite <- three_quarter_turns.
    repeat match goal with
      | |- context [if equal a ?x then _ else _] =>
          destruct (equal a x); [discriminate|]
      end.
    reflexivity.
Qed.

Lemma Equal_searches_four_spins_witness :
  snd (Equal solved (after solved "z y")) = true
  /\ fst (Equal solved (after solved "z y")) = solved
  /\ snd (Equal solved (after solved "R")) = false
  /\ fst (Equal solved (after solved "R"))
     = after (fst (CenterDown (after solved "R") (color (down solved)))) "y y y".
Proof.
  assert (T : snd (Equal solved (after solved "z y")) = true)
    by (vm_compute; reflexivity).
  assert (N : snd (Equal solved (after solved "R")) = false)
    by (vm_compute; reflexivity).
  split; [exact T|].
  split; [exact (proj1 (proj2 (Equal_searches_four_spins solved
                                  (after solved "z y"))) T)|].
  split; [exact N|].
  exact (proj2 (proj2 (Equal_searches_four_spins solved (after solved "R"))) N).
Defined.

(** A colour that sits on the down center and on no other is left alone. *)
Lemma CenterDown_noop (s : Skewb) :
  ~ In (color (down s)) (otherCenters s) ->
  CenterDown s (color (down s)) = (s, None).
Proof.
  expose s. unfold CenterDown, otherCenters.
  cbn [color up front right back left down]. intro H.
  repeat (split_on_eqb;
          [exfalso; apply H;
           match goal with
           | T : String.eqb _ _ = true |- _ => apply String.eqb_eq in T
           end; simpl; tauto|]).
  now rewrite String.eqb_refl.
Qed.

Lemma spin_keeps_centers_apart (s : Skewb) (r : string) :
  In r ["y"; "y'"; "y2"] ->
  ~ In (color (down s)) (otherCenters s) ->
  color (down (after s r)) = color (down s)
  /\ ~ In (color (down s)) (otherCenters (after s r)).
Proof.
  intros H Hs. expose s.
  each_member H ltac:(
    split; [reflexivity|];
    intro F; apply Hs; vm_compute in F |- *; tauto).
Qed.

Lemma spin_comes_back (s : Skewb) (r : string) :
  In r ["y"; "y'"; "y2"] -> In s (spins (after s r)).
Proof.
  intro H. expose s.
  each_member H ltac:(vm_compute; tauto).
Qed.

(** X11.  [Equal] is blind to spin.  When the down colour of [a] is on no
    other center of [a], [Equal] answers true on [a] itself and on [a]
    turned by y, y' or y2, and leaves that copy identical to [a]. *)
Theorem Equal_ignores_spin (a : Skewb) (r : string) :
  ~ In (color (down a)) (otherCenters a) ->
  In r ["y"; "y'"; "y2"] ->
  Equal a a = (a, true) /\ Equal a (after a r) = (a, true).
Proof.
  intros Ha Hr.
  assert (G : forall b, CenterDown b (color (down a)) = (b, None) ->
                        In a (spins b) -> Equal a b = (a, true)).
  { intros b Hc Hb.
    assert (T : snd (Equal a b) = true).
    { rewrite Equal_cases. cbv zeta. rewrite Hc. cbn [fst].
      rewrite three_quarter_turns, two_quarter_turns.
      simpl in Hb.
      destruct Hb as [H|[H|[H|[H|[]]]]]; rewrite H, (equal_refl a);
        repeat match goal with
          | |- context [if equal a ?x then _ else _] => destruct (equal a x)
          end; reflexivity. }
    pose proof (Equal_true_gives_receiver a b T) as S.
    destruct (Equal a b); simpl in *; now subst. }
  split.
  - apply G; [now apply CenterDown_noop | simpl; tauto].
  - destruct (spin_keeps_centers_apart a r Hr Ha) as [Hd Ho].
    apply G; [|now apply spin_comes_back].
    rewrite <- Hd in Ho |- *. now apply CenterDown_noop.
Qed.

Lemma Equal_ignores_spin_witness :
  ~ In (color (down (after solved "R U'"))) (otherCenters (after solved "R U'"))
  /\ In "y'" ["y"; "y'"; "y2"]
  /\ Equal (after solved "R U'") (after solved "R U'")
     = (after solved "R U'", true)
  /\ Equal (after solved "R U'") (after (after solved "R U'") "y'")
     = (after solved "R U'", true).
Proof.
  assert (Ha : ~ In (color (down (after solved "R U'")))
                 (otherCenters (after solved "R U'"))).
  { intro H. vm_compute in H.
    repeat (destruct H as [H | H]; [discriminate H|]). exact H. }
  assert (Hr : In "y'" ["y"; "y'"; "y2"]) by (simpl; tauto).
  split; [exact Ha | split; [exact Hr|]].
  exact (Equal_ignores_spin (after solved "R U'") "y'" Ha Hr).
Defined.

(** ** Bringing a colour down, again *)

Lemma CenterDown_permutes_centers (s : Skewb) (c : string) :
  Permutation (centerColors (fst (CenterDown s c))) (centerColors s).
Proof.
  destruct (CenterDown_choice s c) as [-> | [r [_ ->]]]; [reflexivity|].
  exact (ApplyMoves_permutes_centers WCA s r).
Qed.

(** X12.  On a state whose six centers carry six different colours,
    [CenterDown] is idempotent: once a colour has been brought down, asking
    for it again changes nothing and reports no error. *)
Theorem CenterDown_idempotent (s : Skewb) (c : string) :
  NoDup (centerColors s) ->
  In c (centerColors s) ->
  CenterDown (fst (CenterDown s c)) c = (fst (CenterDown s c), None).
Proof.
  intros Hn Hc.
  destruct (CenterDown_present s c Hc) as [_ [Hd _]].
  pose proof (Permutation_NoDup
                (Permutation_sym (CenterDown_permutes_centers s c)) Hn) as N.
  remember (fst (CenterDown s c)) as s1 eqn:E. clear E.
  rewrite <- Hd. apply CenterDown_noop.
  change (centerColors s1) with (otherCenters s1 ++ [color (down s1)]) in N.
  apply NoDup_remove_2 in N. now rewrite app_nil_r in N.
Qed.

Lemma CenterDown_idempotent_witness :
  NoDup (centerColors (after solved "R z"))
  /\ In "white" (centerColors (after solved "R z"))
  /\ CenterDown (fst (CenterDown (after solved "R z") "white")) "white"
     = (fst (CenterDown (after solved "R z") "white"), None).
Proof.
  assert (N : NoDup (centerColors (after solved "R z"))).
  { vm_compute.
    repeat (constructor; [simpl; intuition discriminate|]). constructor. }
  assert (I : In "white" (centerColors (after solved "R z")))
    by (vm_compute; tauto).
  split; [exact N | split; [exact I|]].
  exact (CenterDown_idempotent (after solved "R z") "white" N I).
Defined.

(** X13.  Without that distinctness [Equal] is not even reflexive.  On the
    puzzle built by [New] with the up colour used again for the down face
    and four different colours around, [CenterDown] takes the up center
    for the one asked for, turns the copy over, and no spin brings it
    back: [Equal] of the state with an identical copy answers false. *)
Theorem Equal_not_reflexive_on_repeated_colour (u f r b l : string) :
  NoDup [f; r; b; l] ->
  snd (Equal (New u f r b l u) (New u f r b l u)) = false.
Proof.
  intro N.
  assert (Hfb : f <> b /\ r <> l /\ f <> r /\ f <> l).
  { inversion N as [|? ? N1 N']; subst. inversion N' as [|? ? N2 N'']; subst.
    simpl in N1, N2. repeat split; intro; subst; tauto. }
  destruct Hfb as [Hfb [Hrl [Hfr Hfl]]].
  rewrite Equal_cases. cbv zeta.
  assert (C : CenterDown (New u f r b l u) (color (down (New u f r b l u)))
              = ApplyWCAMoves (New u f r b l u) "x2").
  { unfold CenterDown. cbn [color up down New]. now rewrite String.eqb_refl. }
  rewrite C.
  repeat match goal with
    | |- context [if equal ?a ?x then _ else _] =>
        let E := fresh "E" in
        destruct (equal a x) eqn:E;
        [exfalso; apply equal_true_iff in E;
         apply (f_equal (fun s => (color (front s), color (right s)))) in E;
         vm_compute in E; inversion E; subst; tauto|]
    end.
  reflexivity.
Qed.

Lemma Equal_not_reflexive_on_repeated_colour_witness :
  NoDup ["green"; "red"; "blue"; "orange"]
  /\ snd (Equal (New "white" "green" "red" "blue" "orange" "white")
                (New "white" "green" "red" "blue" "orange" "white")) = false.
Proof.
  assert (N : NoDup ["green"; "red"; "blue"; "orange"]).
  { repeat (constructor; [simpl; intuition discriminate|]). constructor. }
  split; [exact N|].
  exact (Equal_not_reflexive_on_repeated_colour
           "white" "green" "red" "blue" "orange" N).
Defined.

(** ** The signature behind [FullMirror] *)

Lemma faceIndex_range (u f r b l d c : string) :
  (0 <= faceIndex u f r b l d c <= 5)%Z.
Proof.
  unfold faceIndex.
  repeat match goal with
    | |- context [String.eqb ?x ?y] => destruct (String.eqb x y)
    end; lia.
Qed.

Lemma faceIndex_centerIndex (s : Skewb) (c : string) :
  faceIndex (color (up s)) (color (front s)) (color (right s))
    (color (back s)) (color (left s)) (color (down s)) c
  = centerIndex s c.
Proof.
  unfold faceIndex, centerIndex, centerColors. cbn [positionOf].
  repeat match goal with
    | |- context [String.eqb c ?x] => destruct (String.eqb c x)
    end; reflexivity.
Qed.

Lemma positionOf_absent (c : string) (l : list string) (i : int) :
  ~ In c l -> positionOf c l i = None.
Proof.
  revert i. induction l as [|x l IH]; intros i H; [reflexivity|].
  cbn [positionOf]. destruct (String.eqb_spec c x) as [->|N].
  - exfalso. apply H. simpl. tauto.
  - apply IH. intro Hin. apply H. simpl. tauto.
Qed.

(** X14.  The signature [getRelativeColors] computes is a table of six
    rows of five cells; every cell is a face index between 0 and 5, and
    the first cell of row [i] is [i].  Each other cell holds, for one
    corner sticker, the index of the first center (in the order up, front,
    right, back, left, down) that carries the sticker's colour, and 0 when
    no center carries it.  This holds for every state. *)
Theorem signature_shape (s : Skewb) :
  length (getRelativeColors s) = 6
  /\ Forall (fun row => length row = 5
                        /\ Forall (fun v => (0 <= v <= 5)%Z) row)
            (getRelativeColors s)
  /\ map (fun row => nth 0 row (-1)%Z) (getRelativeColors s)
     = [0; 1; 2; 3; 4; 5]%Z
  /\ getRelativeColors s = signatureTable s
  /\ (forall c, ~ In c (centerColors s) -> centerIndex s c = 0%Z).
Proof.
  split; [|split; [|split; [|split]]].
  - expose s. reflexivity.
  - expose s. cbv -[faceIndex Z.le Z.lt].
    repeat (constructor; [split; [reflexivity|]; repeat constructor;
                          first [apply faceIndex_range | lia] |]).
    constructor.
  - expose s. reflexivity.
  - unfold signatureTable. rewrite <- !faceIndex_centerIndex.
    expose s. reflexivity.
  - intros c H. unfold centerIndex. now rewrite positionOf_absent.
Qed.

Lemma signature_shape_witness :
  ~ In "white" (centerColors (storeColor p_up "pink" solved))
  /\ centerIndex (storeColor p_up "pink" solved) "white" = 0%Z
  /\ getRelativeColors (storeColor p_up "pink" solved)
     = [[0; 0; 0; 0; 0]; [1; 1; 1; 1; 1]; [2; 2; 2; 2; 2];
        [3; 3; 3; 3; 3]; [4; 4; 4; 4; 4]; [5; 5; 5; 5; 5]]%Z.
Proof.
  assert (H : ~ In "white" (centerColors (storeColor p_up "pink" solved))).
  { intro H. vm_compute in H.
    repeat (destruct H as [H | H]; [discriminate H|]). exact H. }
  split; [exact H|].
  destruct (signature_shape (storeColor p_up "pink" solved))
    as [_ [_ [_ [E Z0]]]].
  split; [exact (Z0 "white" H)|].
  rewrite E. vm_compute. reflexivity.
Defined.

Lemma faceIndex_recolor (g : string -> string) (u f r b l d c : string) :
  injective g ->
  faceIndex (g u) (g f) (g r) (g b) (g l) (g d) (g c) = faceIndex u f r b l d c.
Proof.
  intro I. unfold faceIndex.
  assert (E : forall x y, String.eqb (g x) (g y) = String.eqb x y).
  { intros x y. destruct (String.eqb_spec x y) as [->|N].
    - apply String.eqb_refl.
    - apply String.eqb_neq. intro H. now apply N, I. }
  now rewrite !E.
Qed.

Lemma getRelativeColors_recolor (g : string -> string) (s : Skewb) :
  injective g -> getRelativeColors (recolor g s) = getRelativeColors s.
Proof.
  intro I. expose s. cbv -[faceIndex].
  now rewrite !(faceIndex_recolor g) by exact I.
Qed.

Lemma table_eqb_refl (t : table) : table_eqb t t = true.
Proof.
  unfold table_eqb. destruct (list_eq_dec (list_eq_dec Z.eq_dec) t t);
    [reflexivity | contradiction].
Qed.

Lemma fullMirror_refl (s : Skewb) : fullMirror s s = true.
Proof. unfold fullMirror. now rewrite table_eqb_refl. Qed.

Lemma FullMirror_answer (a b : Skewb) :
  FullMirror a b
  = (b, fullMirror a b
        || existsb (fun r => fullMirror a (after b r)) FullMirror_rotations).
Proof.
  unfold FullMirror. destruct (fullMirror a b); cbn [orb]; [reflexivity|].
  apply FullMirrorLoop_spec, FullMirror_rotations_restoring.
Qed.

(** Each rotation of the list is undone by a rotation of the list. *)
Ltac find_way_back a r candidates :=
  match candidates with
  | ?c :: ?rest =>
      first [ assert (after (after a r) c = a) by (vm_compute; reflexivity);
              exists c
            | find_way_back a r rest ]
  end.

Lemma rotation_has_way_back (a : Skewb) (r : string) :
  In r FullMirror_rotations ->
  exists r', In r' FullMirror_rotations /\ after (after a r) r' = a.
Proof.
  intro H. expose a.
  each_member H ltac:(
    match goal with
    | |- exists r', _ /\ after (after ?a ?r) r' = _ =>
        let l := eval unfold FullMirror_rotations in FullMirror_rotations in
        find_way_back a r l
    end;
    split; [simpl; tauto | assumption]).
Qed.

(** X15.  [FullMirror] sees through every orientation, on every state:
    a copy of [a], unrotated or with any one of the 23 rotation strings
    applied, is answered true, and the copy is handed back as it came. *)
Theorem FullMirror_ignores_orientation (a : Skewb) (r : string) :
  In r FullMirror_rotations ->
  FullMirror a a = (a, true)
  /\ FullMirror a (after a r) = (after a r, true).
Proof.
  intro H. rewrite !FullMirror_answer. split.
  - now rewrite fullMirror_refl.
  - destruct (rotation_has_way_back a r H) as [r' [Hr' E]].
    replace (existsb (fun r0 => fullMirror a (after (after a r) r0))
               FullMirror_rotations) with true; [now rewrite orb_true_r|].
    symmetry. apply existsb_exists. exists r'. split; [assumption|].
    rewrite E. apply fullMirror_refl.
Qed.

Lemma FullMirror_ignores_orientation_witness :
  In "x' z" FullMirror_rotations
  /\ FullMirror (after solved "R U'") (after solved "R U'")
     = (after solved "R U'", true)
  /\ FullMirror (after solved "R U'") (after (after solved "R U'") "x' z")
     = (after (after solved "R U'") "x' z", true).
Proof.
  assert (H : In "x' z" FullMirror_rotations) by (simpl; tauto).
  split; [exact H|].
  exact (FullMirror_ignores_orientation (after solved "R U'") "x' z" H).
Defined.

Lemma existsb_pointwise {A} (p q : A -> bool) (l : list A) :
  (forall x, p x = q x) -> existsb p l = existsb q l.
Proof.
  intro H. induction l as [|x l IH]; simpl; [reflexivity|].
  now rewrite H, IH.
Qed.

Lemma after_recolor (g : string -> string) (s : Skewb) (m : string) :
  after (recolor g s) m = recolor g (after s m).
Proof.
  unfold after. change ApplyWCAMoves with (ApplyMoves WCA).
  now rewrite (ApplyMoves_recolor WCA g s m).
Qed.

(** X16.  [FullMirror] does not depend on what the colours are called:
    renaming the colours of either argument, each by its own renaming that
    keeps different colours different, does not change the answer, and the
    second argument is handed back as it came.  In particular a recoloured
    copy of a state is always its mirror. *)
Theorem FullMirror_ignores_colour_names (f g : string -> string)
    (a b : Skewb) :
  injective f -> injective g ->
  FullMirror (recolor f a) (recolor g b) = (recolor g b, snd (FullMirror a b))
  /\ FullMirror a (recolor g a) = (recolor g a, true).
Proof.
  intros If Ig.
  assert (E : forall x y, fullMirror (recolor f x) (recolor g y) = fullMirror x y).
  { intros x y. unfold fullMirror.
    now rewrite (getRelativeColors_recolor f x If),
                (getRelativeColors_recolor g y Ig). }
  assert (E' : forall x y, fullMirror x (recolor g y) = fullMirror x y).
  { intros x y. unfold fullMirror.
    now rewrite (getRelativeColors_recolor g y Ig). }
  rewrite !FullMirror_answer. cbn [snd]. split.
  - rewrite E. do 2 f_equal. apply existsb_pointwise.
    intro r. now rewrite after_recolor, E.
  - rewrite E', fullMirror_refl. reflexivity.
Qed.

Lemma FullMirror_ignores_colour_names_witness :
  injective (fun c => String "n" c)
  /\ injective (fun c => (c ++ "!")%string)
  /\ FullMirror (recolor (fun c => String "n" c) solved)
       (recolor (fun c => (c ++ "!")%string) (after solved "R"))
     = (recolor (fun c => (c ++ "!")%string) (after solved "R"),
        snd (FullMirror solved (after solved "R")))
  /\ FullMirror solved (recolor (fun c => (c ++ "!")%string) solved)
     = (recolor (fun c => (c ++ "!")%string) solved, true).
Proof.
  assert (I1 : injective (fun c => String "n" c))
    by (intros x y H; now inversion H).
  assert (I2 : injective (fun c => (c ++ "!")%string)).
  { intros x. induction x as [|a x IH]; intros [|b y] H; simpl in H.
    - reflexivity.
    - inversion H as [[Ha Hy]]. destruct y; discriminate.
    - inversion H as [[Ha Hx]]. destruct x; discriminate.
    - inversion H as [[Ha Hx]]. f_equal. now apply IH. }
  split; [exact I1 | split; [exact I2|]].
  split.
  - exact (proj1 (FullMirror_ignores_colour_names _ _ solved (after solved "R")
                    I1 I2)).
  - exact (proj2 (FullMirror_ignores_colour_names _ _ solved solved I1 I2)).
Defined.

(** ** [OneLayerMirror] on puzzles that exist *)

Lemma OneLayerMirror_returns_when_counted (a b : Skewb) (c : string) :
  1 <= layerCount a c <= 4 ->
  exists v, OneLayerMirror a b c
            = Returns (receiverDown a c, otherDown a b c, v).
Proof.
  intro H.
  assert (Hc : 1 <= layerCount (receiverDown a c) c <= 4)
    by (unfold receiverDown; now rewrite layerCount_CenterDown).
  unfold OneLayerMirror. fold (receiverDown a c). fold (otherDown a b c).
  destruct (oneLayerMirror_returns (receiverDown a c) (otherDown a b c) c Hc)
    as [v ->].
  destruct v; [eexists; reflexivity|].
  rewrite (OneLayerMirrorLoop_spec _ _ _ _ OneLayerMirror_rotations_restoring Hc).
  eexists; reflexivity.
Qed.

Lemma New_layerCount (u f r b l d c : string) :
  NoDup [u; f; r; b; l; d] -> In c [u; f; r; b; l; d] ->
  layerCount (New u f r b l d) c = 4.
Proof.
  intros N Hc. repeat rewrite NoDup_cons_iff in N. simpl in N.
  rewrite layerCount_sum. unfold onCorner, index, cornerColors, New.
  cbn [ufr urb ulf ubl drf dbr dfl dlb colors first second third at0 at1 at2].
  simpl in Hc.
  repeat (destruct Hc as [Hc | Hc]; [subst c|]); try contradiction;
    repeat match goal with
      | |- context [String.eqb ?x ?y] =>
          destruct (String.eqb_spec x y);
          [try (exfalso; subst; tauto) | try congruence]
      end; reflexivity.
Qed.

(** X17.  On a puzzle that [New] built from six different colours and
    that was then moved by any call of either notation, every one of the
    six colours is on exactly four corners, so [OneLayerMirror] asked for
    that colour returns an answer, whatever the other state is. *)
Theorem OneLayerMirror_returns_on_real_puzzles (n : notation)
    (u f r b l d c m : string) (other : Skewb) :
  NoDup [u; f; r; b; l; d] ->
  In c [u; f; r; b; l; d] ->
  layerCount (fst (ApplyMoves n (New u f r b l d) m)) c = 4
  /\ exists v,
       OneLayerMirror (fst (ApplyMoves n (New u f r b l d) m)) other c
       = Returns (receiverDown (fst (ApplyMoves n (New u f r b l d) m)) c,
                  otherDown (fst (ApplyMoves n (New u f r b l d) m)) other c,
                  v).
Proof.
  intros N Hc.
  assert (E : layerCount (fst (ApplyMoves n (New u f r b l d) m)) c = 4)
    by (rewrite ApplyMoves_keeps_layerCount; now apply New_layerCount).
  split; [exact E|].
  apply OneLayerMirror_returns_when_counted. lia.
Qed.

Lemma OneLayerMirror_returns_on_real_puzzles_witness :
  NoDup ["white"; "green"; "red"; "blue"; "orange"; "yellow"]
  /\ In "red" ["white"; "green"; "red"; "blue"; "orange"; "yellow"]
  /\ layerCount (fst (ApplyMoves Rubiskewb solved "F r' b x")) "red" = 4
  /\ exists v,
       OneLayerMirror (fst (ApplyMoves Rubiskewb solved "F r' b x")) lettered "red"
       = Returns (receiverDown (fst (ApplyMoves Rubiskewb solved "F r' b x")) "red",
                  otherDown (fst (ApplyMoves Rubiskewb solved "F r' b x"))
                    lettered "red",
                  v).
Proof.
  assert (N : NoDup ["white"; "green"; "red"; "blue"; "orange"; "yellow"]).
  { repeat (constructor; [simpl; intuition discriminate|]). constructor. }
  assert (I : In "red" ["white"; "green"; "red"; "blue"; "orange"; "yellow"])
    by (simpl; tauto).
  split; [exact N | split; [exact I|]].
  exact (OneLayerMirror_returns_on_real_puzzles Rubiskewb
           "white" "green" "red" "blue" "orange" "yellow" "red" "F r' b x"
           lettered N I).
Defined.

Lemma appendLayerCorner_same (get : Skewb -> array3 string) (s : Skewb)
    (c : string) (acc : list (array3 string) * list (array3 string)) :
  fst acc = snd acc ->
  fst (appendLayerCorner get s s c acc) = snd (appendLayerCorner get s s c acc).
Proof.
  intro E. unfold appendLayerCorner.
  destruct (negb (Z.eqb (index (get s) c) (-1))); simpl; [now rewrite E | exact E].
Qed.

Lemma oneLayerMirror_same (s : Skewb) (c : string) :
  1 <= layerCount s c <= 4 -> oneLayerMirror s s c = Returns true.
Proof.
  intro H. unfold oneLayerMirror.
  assert (E : fst (layerCorners s s c) = snd (layerCorners s s c))
    by (unfold layerCorners; cbv zeta;
        repeat apply appendLayerCorner_same; reflexivity).
  destruct (layerCorners_lengths s s c) as [Ls _].
  destruct (layerCorners s s c) as [ls lo]. simpl in E, Ls. subst lo.
  destruct (getLayerColor_returns ls c) as [t ->]; [lia|].
  now rewrite table_eqb_refl.
Qed.

(** X18.  A state is its own one-layer mirror: when [layerColor] is on a
    center of [a] and on one to four of its corners, [OneLayerMirror] of
    [a] with an identical copy answers true at the first comparison, and
    both are left as [CenterDown] on [layerColor] puts them. *)
Theorem OneLayerMirror_of_a_copy (a : Skewb) (layerColor : string) :
  In layerColor (centerColors a) ->
  1 <= layerCount a layerColor <= 4 ->
  OneLayerMirror a a layerColor
  = Returns (fst (CenterDown a layerColor), fst (CenterDown a layerColor), true).
Proof.
  intros Hin Hc.
  destruct (CenterDown_present a layerColor Hin) as [_ [Hd _]].
  unfold OneLayerMirror. rewrite Hd.
  rewrite oneLayerMirror_same; [reflexivity|].
  now rewrite layerCount_CenterDown.
Qed.

Lemma OneLayerMirror_of_a_copy_witness :
  In "green" (centerColors (after solved "R U'"))
  /\ 1 <= layerCount (after solved "R U'") "green" <= 4
  /\ OneLayerMirror (after solved "R U'") (after solved "R U'") "green"
     = Returns (fst (CenterDown (after solved "R U'") "green"),
                fst (CenterDown (after solved "R U'") "green"), true).
Proof.
  assert (I : In "green" (centerColors (after solved "R U'")))
    by (vm_compute; tauto).
  assert (C : 1 <= layerCount (after solved "R U'") "green" <= 4)
    by (vm_compute; lia).
  split; [exact I | split; [exact C|]].
  exact (OneLayerMirror_of_a_copy (after solved "R U'") "green" I C).
Defined.

(** ** The reverse computer in closed form *)

Lemma append_empty (a : string) : (a ++ EmptyString)%string = a.
Proof. induction a as [|c a IH]; simpl; [reflexivity | now rewrite IH]. Qed.

Lemma concatAll_app (l1 l2 : list string) :
  concatAll (l1 ++ l2) = (concatAll l1 ++ concatAll l2)%string.
Proof.
  unfold concatAll. induction l1 as [|x l IH]; simpl; [reflexivity|].
  now rewrite IH, string_append_assoc.
Qed.

Lemma reverse_fold_closed (tokens : list string) (acc : string) :
  fold_left (fun reverse move => Sprintf_v_v (reverseMove move) reverse)
            tokens acc
  = (concatAll (map (fun t => reverseMove t ++ " ")%string (rev tokens))
     ++ acc)%string.
Proof.
  revert acc. induction tokens as [|t ts IH]; intro acc; [reflexivity|].
  cbn [fold_left rev]. rewrite IH, map_app, concatAll_app.
  unfold Sprintf_v_v. cbn [map concatAll fold_right].
  now rewrite append_empty, !string_append_assoc.
Qed.

(** X19.  [createReverse] writes the tokens of its argument last to first,
    each one reversed and each one followed by a space.  On the tokens of
    either vocabulary reversing is an involution that stays inside the
    vocabulary. *)
Theorem createReverse_closed_form (m : string) :
  createReverse m
  = concatAll (map (fun t => reverseMove t ++ " ")%string
                   (rev (Split m space)))
  /\ (forall n t, In t (vocabulary n) ->
        In (reverseMove t) (vocabulary n)
        /\ reverseMove (reverseMove t) = t).
Proof.
  split.
  - unfold createReverse. now rewrite reverse_fold_closed, append_empty.
  - intros n t H. split; [now apply reverse_in_vocabulary|].
    destruct n; each_member H ltac:(reflexivity).
Qed.

Lemma createReverse_closed_form_witness :
  In "r'" (vocabulary Rubiskewb)
  /\ In (reverseMove "r'") (vocabulary Rubiskewb)
  /\ reverseMove (reverseMove "r'") = "r'".
Proof.
  assert (H : In "r'" (vocabulary Rubiskewb)) by (simpl; tauto).
  split; [exact H|].
  exact (proj2 (createReverse_closed_form EmptyString) Rubiskewb "r'" H).
Defined.

(** ** The generator *)

Lemma last_of_sequence (p t : string) :
  Contains t space = false ->
  Contains (p ++ String space t) space = true
  /\ last (Split (p ++ String space t) space) EmptyString = t.
Proof.
  intro H. split.
  - rewrite Contains_append.
    replace (Contains (String space t) space) with true
      by reflexivity.
    apply orb_true_r.
  - rewrite Split_append_sep, (Split_single space t H). apply last_last.
Qed.

(** X20.  [lastMoveIsDifferent] looks at the last token of the sequence
    only, and it never lets a move follow a move of its own family: for
    every token of either vocabulary the answer is false against the same
    token and against its reverse, after any sequence. *)
Theorem lastMoveIsDifferent_spec (p t move2 : string) :
  Contains t space = false ->
  lastMoveIsDifferent (p ++ " " ++ t) move2 = lastMoveIsDifferent t move2
  /\ (forall n, In t (vocabulary n) ->
        lastMoveIsDifferent (p ++ " " ++ t) t = false
        /\ lastMoveIsDifferent (p ++ " " ++ t) (reverseMove t) = false).
Proof.
  intro H.
  assert (E : forall m, lastMoveIsDifferent (p ++ " " ++ t) m
                        = lastMoveIsDifferent t m).
  { intro m. unfold lastMoveIsDifferent.
    change (p ++ " " ++ t)%string with (p ++ String space t)%string.
    destruct (last_of_sequence p t H) as [-> ->]. now rewrite H. }
  split; [apply E|].
  intros n Hn. rewrite !E. clear E H.
  destruct n; each_member Hn ltac:(split; reflexivity).
Qed.

Lemma lastMoveIsDifferent_spec_witness :
  Contains "r'" space = false
  /\ In "r'" (vocabulary Rubiskewb)
  /\ lastMoveIsDifferent ("F b" ++ " " ++ "r'") "f"
     = lastMoveIsDifferent "r'" "f"
  /\ lastMoveIsDifferent ("F b" ++ " " ++ "r'") "r'" = false
  /\ lastMoveIsDifferent ("F b" ++ " " ++ "r'") (reverseMove "r'") = false.
Proof.
  assert (H : Contains "r'" space = false) by reflexivity.
  assert (I : In "r'" (vocabulary Rubiskewb)) by (simpl; tauto).
  split; [exact H | split; [exact I|]].
  split.
  - exact (proj1 (lastMoveIsDifferent_spec "F b" "r'" "f" H)).
  - exact (proj2 (lastMoveIsDifferent_spec "F b" "r'" "f" H) Rubiskewb I).
Defined.

(** [acc'] continues [acc], and holds no two sequences that lead to the
    same state if [acc] held none. *)
Definition grows (acc acc' : list string) : Prop :=
  (exists added, acc' = acc ++ added)
  /\ (NoDup (map reachedBy acc) -> NoDup (map reachedBy acc')).

Lemma grows_refl (acc : list string) : grows acc acc.
Proof. split; [exists []; now rewrite app_nil_r | auto]. Qed.

Lemma grows_trans (a b c : list string) : grows a b -> grows b c -> grows a c.
Proof.
  intros [[x ->] N1] [[y ->] N2]. split; [|auto].
  exists (x ++ y). now rewrite app_assoc.
Qed.

Lemma samePreMove_false (move : string) (acc : list string) :
  existsb (samePreMove move) acc = false ->
  ~ In (reachedBy move) (map reachedBy acc).
Proof.
  intros H Hin. apply in_map_iff in Hin. destruct Hin as [e [He Hin]].
  assert (T : existsb (samePreMove move) acc = true).
  { apply existsb_exists. exists e. split; [assumption|].
    unfold samePreMove. fold (reachedBy move). fold (reachedBy e).
    rewrite He. apply equal_refl. }
  congruence.
Qed.

Lemma grows_by_new (move : string) (acc : list string) :
  existsb (samePreMove move) acc = false -> grows acc (acc ++ [move]).
Proof.
  intro H. split; [now exists [move]|].
  intro N. rewrite map_app. apply NoDup_app; [assumption | |].
  - simpl. constructor; [simpl; tauto | constructor].
  - intros a Ha [<-|[]]. now apply (samePreMove_false move acc H).
Qed.

Lemma fold_grows (step : option (list string) -> string -> option (list string))
    (moves : list string) :
  (forall acc move, exists acc',
      step (Some acc) move = Some acc' /\ grows acc acc') ->
  forall acc, exists acc',
    fold_left step moves (Some acc) = Some acc' /\ grows acc acc'.
Proof.
  intro Hs. induction moves as [|m ms IH]; intro acc; simpl.
  - exists acc. split; [reflexivity | apply grows_refl].
  - destruct (Hs acc m) as [acc1 [-> G1]].
    destruct (IH acc1) as [acc2 [-> G2]].
    exists acc2. split; [reflexivity | eapply grows_trans; eassumption].
Qed.

Lemma iteratorPreMoves_grows (fuel : nat) :
  forall previousMoves currentIteration maxIteration allPreMoves,
    (currentIteration <= maxIteration)%Z ->
    Z.to_nat (maxIteration - currentIteration) < fuel ->
    exists acc',
      iteratorPreMoves fuel previousMoves currentIteration maxIteration
        allPreMoves = Some acc'
      /\ grows allPreMoves acc'.
Proof.
  induction fuel as [|fuel IH]; intros p cur mx acc Hle Hf; [lia|].
  cbn [iteratorPreMoves]. apply fold_grows. clear acc.
  intros acc move.
  destruct (Z.eqb_spec cur mx) as [->|Hne]; cbn [negb].
  - destruct (Z.eqb (moveCount (candidate p move mx)) mx).
    + destruct (existsb (samePreMove (candidate p move mx)) acc) eqn:E;
        cbn [negb].
      * exists acc. split; [reflexivity | apply grows_refl].
      * eexists. split; [reflexivity | now apply grows_by_new].
    + exists acc. split; [reflexivity | apply grows_refl].
  - apply IH; lia.
Qed.

(** X21.  [iteratorPreMoves] only ever appends to [allPreMoves], and what
    it appends never leads to a state an entry already leads to: when the
    recursion starts at or before its last level it returns (a fuel above
    the number of levels is enough), the old list is a prefix of the new
    one, and a list without two sequences for one state stays so. *)
Theorem iteratorPreMoves_appends_new_states (fuel : nat)
    (previousMoves : string) (currentIteration maxIteration : int)
    (allPreMoves : list string) :
  (currentIteration <= maxIteration)%Z ->
  Z.to_nat (maxIteration - currentIteration) < fuel ->
  exists added,
    iteratorPreMoves fuel previousMoves currentIteration maxIteration
      allPreMoves = Some (allPreMoves ++ added)
    /\ (NoDup (map reachedBy allPreMoves) ->
        NoDup (map reachedBy (allPreMoves ++ added))).
Proof.
  intros Hle Hf.
  destruct (iteratorPreMoves_grows fuel previousMoves currentIteration
              maxIteration allPreMoves Hle Hf) as [acc' [E [[added ->] N]]].
  exists added. split; assumption.
Qed.

Lemma iteratorPreMoves_appends_new_states_witness :
  (1 <= 2)%Z
  /\ Z.to_nat (2 - 1) < 2
  /\ NoDup (map reachedBy [EmptyString; "x"])
  /\ exists added,
       iteratorPreMoves 2 EmptyString 1%Z 2%Z [EmptyString; "x"]
       = Some ([EmptyString; "x"] ++ added)
       /\ NoDup (map reachedBy ([EmptyString; "x"] ++ added)).
Proof.
  assert (H1 : (1 <= 2)%Z) by lia.
  assert (H2 : Z.to_nat (2 - 1) < 2) by (vm_compute; lia).
  assert (H3 : NoDup (map reachedBy [EmptyString; "x"])).
  { constructor; [|constructor; [simpl; tauto | constructor]].
    intros [H|[]]. apply (f_equal (fun s => color (up s))) in H.
    vm_compute in H. discriminate H. }
  split; [exact H1 | split; [exact H2 | split; [exact H3|]]].
  destruct (iteratorPreMoves_appends_new_states 2 EmptyString 1%Z 2%Z
              [EmptyString; "x"] H1 H2) as [added [E N]].
  exists added. split; [exact E | exact (N H3)].
Defined.

Lemma fold_left_pointwise {A B} (f g : A -> B -> A) (l : list B) (a : A) :
  (forall x y, f x y = g x y) -> fold_left f l a = fold_left g l a.
Proof.
  intro H. revert a. induction l as [|y l IH]; intro a; simpl; [reflexivity|].
  now rewrite H, IH.
Qed.

(** Any two fuels above the number of levels give the same result. *)
Lemma iteratorPreMoves_fuel (fuel : nat) :
  forall fuel' previousMoves currentIteration maxIteration allPreMoves,
    (currentIteration <= maxIteration)%Z ->
    Z.to_nat (maxIteration - currentIteration) < fuel ->
    Z.to_nat (maxIteration - currentIteration) < fuel' ->
    iteratorPreMoves fuel previousMoves currentIteration maxIteration allPreMoves
    = iteratorPreMoves fuel' previousMoves currentIteration maxIteration
        allPreMoves.
Proof.
  induction fuel as [|fuel IH]; intros [|fuel'] p cur mx acc Hle Hf Hf';
    try lia.
  cbn [iteratorPreMoves]. apply fold_left_pointwise.
  intros [acc0|] move; [|reflexivity].
  destruct (Z.eqb_spec cur mx) as [->|Hne]; cbn [negb]; [reflexivity|].
  apply IH; lia.
Qed.

(** X22.  The premoves [main] collects with its three calls of
    [iteratorPreMoves] (depths 1, 2 and 3) are the empty sequence followed
    by exactly the 23 rotation strings that [FullMirror] walks, in the same
    order; depth 3 adds nothing.  Any fuel of 3 or more gives this. *)
Theorem generator_premoves_are_the_rotations (fuel : nat) :
  3 <= fuel ->
  mainPreMoves fuel = Some (EmptyString :: FullMirror_rotations)
  /\ bind (iteratorPreMoves fuel EmptyString 1%Z 1%Z [EmptyString])
          (iteratorPreMoves fuel EmptyString 1%Z 2%Z)
     = Some (EmptyString :: FullMirror_rotations).
Proof.
  intro H.
  assert (E1 : iteratorPreMoves fuel EmptyString 1%Z 1%Z [EmptyString]
               = Some (EmptyString :: preMoves)).
  { rewrite (iteratorPreMoves_fuel fuel 3) by (simpl; lia).
    vm_compute. reflexivity. }
  assert (E2 : iteratorPreMoves fuel EmptyString 1%Z 2%Z (EmptyString :: preMoves)
               = Some (EmptyString :: FullMirror_rotations)).
  { rewrite (iteratorPreMoves_fuel fuel 3) by (simpl; lia).
    vm_compute. reflexivity. }
  assert (E3 : iteratorPreMoves fuel EmptyString 1%Z 3%Z
                 (EmptyString :: FullMirror_rotations)
               = Some (EmptyString :: FullMirror_rotations)).
  { rewrite (iteratorPreMoves_fuel fuel 3) by (simpl; lia).
    vm_compute. reflexivity. }
  unfold mainPreMoves. rewrite E1. cbn [bind]. rewrite E2. cbn [bind].
  split; [exact E3 | reflexivity].
Qed.

Lemma generator_premoves_are_the_rotations_witness :
  3 <= 3
  /\ mainPreMoves 3 = Some (EmptyString :: FullMirror_rotations)
  /\ bind (iteratorPreMoves 3 EmptyString 1%Z 1%Z [EmptyString])
          (iteratorPreMoves 3 EmptyString 1%Z 2%Z)
     = Some (EmptyString :: FullMirror_rotations).
Proof.
  split; [apply le_n | exact (generator_premoves_are_the_rotations 3 (le_n 3))].
Defined.

(** What a call adds to the table does not depend on the table. *)
Definition appendsOnly (run : solveTable -> option solveTable) : Prop :=
  exists added : int -> list string,
    forall t, exists t',
      run t = Some t' /\ forall k, t' k = t k ++ added k.

Lemma fold_appendsOnly (step : option solveTable -> string -> option solveTable)
    (moves : list string) :
  (forall move, appendsOnly (fun t => step (Some t) move)) ->
  appendsOnly (fun t => fold_left step moves (Some t)).
Proof.
  intro Hs. induction moves as [|m ms IH].
  - exists (fun _ => []). intro t. exists t.
    split; [reflexivity | intro k; now rewrite app_nil_r].
  - destruct (Hs m) as [a1 H1]. destruct IH as [a2 H2].
    exists (fun k => a1 k ++ a2 k). intro t. cbn [fold_left].
    destruct (H1 t) as [t1 [-> E1]]. destruct (H2 t1) as [t2 [-> E2]].
    exists t2. split; [reflexivity|].
    intro k. now rewrite E2, E1, app_assoc.
Qed.

Lemma iteratorSolveMoves_appendsOnly (fuel : nat) :
  forall previousMoves currentIteration maxIteration allPreMoves,
    (currentIteration <= maxIteration)%Z ->
    Z.to_nat (maxIteration - currentIteration) < fuel ->
    appendsOnly (iteratorSolveMoves fuel previousMoves currentIteration
                   maxIteration allPreMoves).
Proof.
  induction fuel as [|fuel IH]; intros p cur mx pre Hle Hf; [lia|].
  cbn [iteratorSolveMoves]. apply fold_appendsOnly. intro move.
  destruct (Z.eqb_spec cur mx) as [->|Hne]; cbn [negb].
  - cbv zeta.
    destruct (Z.eqb (moveCount (candidate p move mx)) mx);
      [destruct (negb (isInLoop (moveCount (candidate p move mx))
                         (existsb (sameUpToSpin (candidate p move mx)) pre)))|].
    + exists (fun k => if Z.eqb k (moveCount (candidate p move mx))
                       then [candidate p move mx] else []).
      intro t. eexists. split; [reflexivity|].
      intro k. unfold tableAppend.
      destruct (Z.eqb_spec k (moveCount (candidate p move mx))) as [->|];
        [reflexivity | now rewrite app_nil_r].
    + exists (fun _ => []). intro t. exists t.
      split; [reflexivity | intro k; now rewrite app_nil_r].
    + exists (fun _ => []). intro t. exists t.
      split; [reflexivity | intro k; now rewrite app_nil_r].
  - apply IH; lia.
Qed.

(** X23.  [iteratorSolveMoves] never reads the table it fills: what a
    call appends under each key is the same whatever the table holds, so a
    sequence is never compared with the sequences accepted before it, only
    with the premoves.  The table of [main] therefore holds sequences that
    lead to one and the same state: after two rounds both [F b] and [b F]
    are under key 2. *)
Theorem iteratorSolveMoves_never_reads_its_table (fuel : nat)
    (previousMoves : string) (currentIteration maxIteration : int)
    (allPreMoves : list string) :
  ((currentIteration <= maxIteration)%Z ->
   Z.to_nat (maxIteration - currentIteration) < fuel ->
   exists added : int -> list string,
     forall allSolveMoves, exists t',
       iteratorSolveMoves fuel previousMoves currentIteration maxIteration
         allPreMoves allSolveMoves = Some t'
       /\ forall k, t' k = allSolveMoves k ++ added k)
  /\ (exists t, mainSolveMoves 3 2 = Some t
                /\ In "F b" (t 2%Z) /\ In "b F" (t 2%Z)
                /\ ExactEqual (reachedBy "F b") (reachedBy "b F") = true).
Proof.
  split; [apply iteratorSolveMoves_appendsOnly|].
  assert (E : option_map (fun t => (oneOf "F b" (t 2%Z), oneOf "b F" (t 2%Z)))
                (mainSolveMoves 3 2) = Some (true, true))
    by (vm_compute; reflexivity).
  destruct (mainSolveMoves 3 2) as [t|]; [|discriminate].
  exists t. cbn [option_map] in E. injection E as E1 E2.
  split; [reflexivity|].
  split; [now apply oneOf_In | split; [now apply oneOf_In|]].
  vm_compute. reflexivity.
Qed.

Lemma iteratorSolveMoves_never_reads_its_table_witness :
  (2 <= 2)%Z
  /\ Z.to_nat (2 - 2) < 1
  /\ exists added : int -> list string,
       forall allSolveMoves, exists t',
         iteratorSolveMoves 1 "F" 2%Z 2%Z (EmptyString :: FullMirror_rotations)
           allSolveMoves = Some t'
         /\ forall k, t' k = allSolveMoves k ++ added k.
Proof.
  assert (H1 : (2 <= 2)%Z) by lia.
  assert (H2 : Z.to_nat (2 - 2) < 1) by (vm_compute; lia).
  split; [exact H1 | split; [exact H2|]].
  exact (proj1 (iteratorSolveMoves_never_reads_its_table 1 "F" 2%Z 2%Z
                  (EmptyString :: FullMirror_rotations)) H1 H2).
Defined.
